(** * BioSTEAM: recycle convergence engine and multi-stage equilibrium cascade

    A shallow embedding of the parts of [biosteam/_system.py] and
    [biosteam/units/phase_equilibrium.py] that decide the convergence test,
    the iteration budget, the recycle feasibility guard, the tolerance and
    recycle setters, the tridiagonal solvers, the temperature clamp and the
    cache retry of the multi-stage unit.

    Numbers.  The source computes with binary64 floats.  Here a float is an
    exact rational ([Qc], canonical fractions, so that equality is Leibniz
    equality); comparisons, [abs], [max] and the four operations are the
    exact ones and no rounding is modelled.  The "careful" solver tests its
    operands against [inf] and [-inf], so the cascade solvers are also
    instantiated on rationals extended with the IEEE infinities and NaN. *)

From Stdlib Require Import ZArith QArith Qcanon Qcabs Lia Bool.
From stdpp Require Import base option list decidable.
From Equations Require Import Equations.

Set Warnings "-register-all".
Local Open Scope Qc_scope.
Local Open Scope list_scope.

(** ** Floats as exact rationals *)

#[global] Instance Qc_eq_decision : EqDecision Qc := Qc_eq_dec.

(** [x < y] and [x == 0] on floats, as booleans. *)
Definition Qcltb (x y : Qc) : bool := negb (Qle_bool y x).
Definition Qceqb (x y : Qc) : bool := Qeq_bool x y.

(** The elementwise [np.maximum] of two numbers. *)
Definition Qcmax (x y : Qc) : Qc := if Qcltb x y then y else x.

(** NumPy helpers on one-dimensional arrays. *)
Definition np_abs (x : list Qc) : list Qc := Qcabs <$> x.
Definition np_sub (x y : list Qc) : list Qc := zip_with Qcminus x y.
Definition np_div (x y : list Qc) : list Qc := zip_with Qcdiv x y.
Definition np_maximum (x y : list Qc) : list Qc := zip_with Qcmax x y.

(** [x[mask]]: the entries of [x] at which the boolean mask holds. *)
Definition mask_select {A} (mask : list bool) (x : list A) : list A :=
  snd <$> filter (fun p => fst p = true) (zip mask x).

(** [x.max()]; NumPy raises [ValueError] on an empty array ([None]). *)
Definition amax (x : list Qc) : option Qc :=
  match x with
  | [] => None
  | x0 :: xs => Some (foldl Qcmax x0 xs)
  end.

(** Python truthiness of an optional float or int argument: [None] and
    zero are falsy. *)
Definition truthy_float (o : option Qc) : bool :=
  match o with Some x => negb (Qceqb x 0) | None => false end.
Definition truthy_int (o : option Z) : bool :=
  match o with Some n => negb (n =? 0)%Z | None => false end.

(** ** [biosteam/_system.py] *)

Module System.

(** A tear stream: its component molar flows and its temperature. *)
Record Stream := { imol : list Qc; T : Qc }.

(** The value held by [_recycle]: a single [Stream], or the [set] built
    from an iterable of streams (kept here in its iteration order). *)
Inductive recycle :=
| OneStream (s : Stream)
| Streams (l : list Stream).

(** The value handed to the [recycle] setter: [None], a [Stream], an
    iterable whose items are streams ([Some]) or other objects ([None]),
    or an object of any other type. *)
Inductive recycle_arg :=
| ArgNone
| ArgStream (s : Stream)
| ArgIterable (items : list (option Stream))
| ArgOther.

(** A two-dimensional flow array, by rows. *)
Abbreviation ndarray := (list (list Qc)).

(** Elements of a path: a unit, a nested system, or a callable. *)
Inductive element (S : Type) :=
| Unit (ID : nat)
| Subsystem (s : S)
| Function (ID : nat).
Arguments Unit {S} ID.
Arguments Subsystem {S} s.
Arguments Function {S} ID.

(** The bound methods [_converge_method] can hold. *)
Inductive method := _fixedpoint | _wegstein | _aitken.

(** The instance slots the modelled methods read or write. *)
Inductive t : Type := Build {
  _path : list (element t);
  _recycle : option recycle;
  _N_runs : option Z;
  _mol_error : Qc;
  _rmol_error : Qc;
  _T_error : Qc;
  _rT_error : Qc;
  _iter : Z;
  maxiter : Z;
  molar_tolerance : Qc;
  relative_molar_tolerance : Qc;
  temperature_tolerance : Qc;
  relative_temperature_tolerance : Qc;
  _converge_method : method }.

(** Class attributes of [System]; [strict_convergence] is not a slot, so
    every instance reads the class value. *)
Record class_attributes := {
  default_maxiter : Z;
  default_molar_tolerance : Qc;
  default_relative_molar_tolerance : Qc;
  default_temperature_tolerance : Qc;
  default_relative_temperature_tolerance : Qc;
  default_converge_method : method;
  strict_convergence : bool }.

(** The class body of [System]. *)
Definition System_class : class_attributes := {|
  default_maxiter := 200;
  default_molar_tolerance := 1;
  default_relative_molar_tolerance := Q2Qc 0.01;
  default_temperature_tolerance := Q2Qc 0.10;
  default_relative_temperature_tolerance := Q2Qc 0.001;
  default_converge_method := _aitken;
  strict_convergence := true |}.

(** What [_error_info] formats into the message: nothing when the recycle
    is falsy, otherwise the loop count and the four last errors. *)
Record error_info := {
  info_iter : Z;
  info_mol_error : Qc;
  info_rmol_error : Qc;
  info_T_error : Qc;
  info_rT_error : Qc }.

Inductive exn :=
| InfeasibleRegion
| RuntimeError_no_recycle
| RuntimeError_could_not_converge (info : option error_info)
| IndexError (expected got : nat)
| ValueError
| UnitError (ID : nat).

Inductive result (A : Type) :=
| Ok (a : A)
| Raise (e : exn).
Arguments Ok {A} a.
Arguments Raise {A} e.

(** Methods mutate [self] and may raise; the mutation made before a
    [raise] stays. *)
Definition M (A : Type) : Type := t -> t * result A.

Definition ret {A} (a : A) : M A := fun s => (s, Ok a).
Definition raise {A} (e : exn) : M A := fun s => (s, Raise e).
Definition bind {A B} (c : M A) (k : A -> M B) : M B :=
  fun s => match c s with
           | (s', Ok a) => k a s'
           | (s', Raise e) => (s', Raise e)
           end.
Definition get : M t := fun s => (s, Ok s).
Definition modify (f : t -> t) : M unit := fun s => (f s, Ok tt).
Definition lift {A} (r : result A) : M A := fun s => (s, r).

Notation "x <- c1 ;; c2" := (bind c1 (fun x => c2))
  (at level 100, c1 at next level, right associativity).

(** Slot assignments. *)
Definition set_path v (s : t) : t :=
  Build v (_recycle s) (_N_runs s) (_mol_error s) (_rmol_error s)
    (_T_error s) (_rT_error s) (_iter s) (maxiter s) (molar_tolerance s)
    (relative_molar_tolerance s) (temperature_tolerance s)
    (relative_temperature_tolerance s) (_converge_method s).
Definition set_recycle v (s : t) : t :=
  Build (_path s) v (_N_runs s) (_mol_error s) (_rmol_error s)
    (_T_error s) (_rT_error s) (_iter s) (maxiter s) (molar_tolerance s)
    (relative_molar_tolerance s) (temperature_tolerance s)
    (relative_temperature_tolerance s) (_converge_method s).
Definition set_N_runs v (s : t) : t :=
  Build (_path s) (_recycle s) v (_mol_error s) (_rmol_error s)
    (_T_error s) (_rT_error s) (_iter s) (maxiter s) (molar_tolerance s)
    (relative_molar_tolerance s) (temperature_tolerance s)
    (relative_temperature_tolerance s) (_converge_method s).
Definition set_mol_error v (s : t) : t :=
  Build (_path s) (_recycle s) (_N_runs s) v (_rmol_error s)
    (_T_error s) (_rT_error s) (_iter s) (maxiter s) (molar_tolerance s)
    (relative_molar_tolerance s) (temperature_tolerance s)
    (relative_temperature_tolerance s) (_converge_method s).
Definition set_rmol_error v (s : t) : t :=
  Build (_path s) (_recycle s) (_N_runs s) (_mol_error s) v
    (_T_error s) (_rT_error s) (_iter s) (maxiter s) (molar_tolerance s)
    (relative_molar_tolerance s) (temperature_tolerance s)
    (relative_temperature_tolerance s) (_converge_method s).
Definition set_T_error v (s : t) : t :=
  Build (_path s) (_recycle s) (_N_runs s) (_mol_error s) (_rmol_error s)
    v (_rT_error s) (_iter s) (maxiter s) (molar_tolerance s)
    (relative_molar_tolerance s) (temperature_tolerance s)
    (relative_temperature_tolerance s) (_converge_method s).
Definition set_rT_error v (s : t) : t :=
  Build (_path s) (_recycle s) (_N_runs s) (_mol_error s) (_rmol_error s)
    (_T_error s) v (_iter s) (maxiter s) (molar_tolerance s)
    (relative_molar_tolerance s) (temperature_tolerance s)
    (relative_temperature_tolerance s) (_converge_method s).
Definition set_iter v (s : t) : t :=
  Build (_path s) (_recycle s) (_N_runs s) (_mol_error s) (_rmol_error s)
    (_T_error s) (_rT_error s) v (maxiter s) (molar_tolerance s)
    (relative_molar_tolerance s) (temperature_tolerance s)
    (relative_temperature_tolerance s) (_converge_method s).
Definition set_maxiter v (s : t) : t :=
  Build (_path s) (_recycle s) (_N_runs s) (_mol_error s) (_rmol_error s)
    (_T_error s) (_rT_error s) (_iter s) v (molar_tolerance s)
    (relative_molar_tolerance s) (temperature_tolerance s)
    (relative_temperature_tolerance s) (_converge_method s).
Definition set_molar_tolerance v (s : t) : t :=
  Build (_path s) (_recycle s) (_N_runs s) (_mol_error s) (_rmol_error s)
    (_T_error s) (_rT_error s) (_iter s) (maxiter s) v
    (relative_molar_tolerance s) (temperature_tolerance s)
    (relative_temperature_tolerance s) (_converge_method s).
Definition set_relative_molar_tolerance v (s : t) : t :=
  Build (_path s) (_recycle s) (_N_runs s) (_mol_error s) (_rmol_error s)
    (_T_error s) (_rT_error s) (_iter s) (maxiter s) (molar_tolerance s)
    v (temperature_tolerance s)
    (relative_temperature_tolerance s) (_converge_method s).
Definition set_temperature_tolerance v (s : t) : t :=
  Build (_path s) (_recycle s) (_N_runs s) (_mol_error s) (_rmol_error s)
    (_T_error s) (_rT_error s) (_iter s) (maxiter s) (molar_tolerance s)
    (relative_molar_tolerance s) v
    (relative_temperature_tolerance s) (_converge_method s).
Definition set_relative_temperature_tolerance v (s : t) : t :=
  Build (_path s) (_recycle s) (_N_runs s) (_mol_error s) (_rmol_error s)
    (_T_error s) (_rT_error s) (_iter s) (maxiter s) (molar_tolerance s)
    (relative_molar_tolerance s) (temperature_tolerance s)
    v (_converge_method s).
Definition set_converge_method v (s : t) : t :=
  Build (_path s) (_recycle s) (_N_runs s) (_mol_error s) (_rmol_error s)
    (_T_error s) (_rT_error s) (_iter s) (maxiter s) (molar_tolerance s)
    (relative_molar_tolerance s) (temperature_tolerance s)
    (relative_temperature_tolerance s) v.

(** Python truthiness of [_recycle]: [None] and the empty set are falsy. *)
Definition truthy_recycle (r : option recycle) : bool :=
  match r with
  | None => false
  | Some (OneStream _) => true
  | Some (Streams l) => negb (bool_decide (length l = 0%nat))
  end.

(** *** The [recycle] and [N_runs] properties *)

(** [recycle.setter]: [_N_runs] is cleared first, then the argument is
    dispatched on its type; an iterable with a non-stream item, or an
    object of another type, raises [ValueError] after the clearing. *)
Definition recycle_setter (recycle : recycle_arg) : M unit :=
  _ <- modify (set_N_runs None) ;;
  match recycle with
  | ArgNone => modify (set_recycle None)
  | ArgStream s => modify (set_recycle (Some (OneStream s)))
  | ArgIterable items =>
      match mapM id items with
      | Some l => modify (set_recycle (Some (Streams l)))
      | None => raise ValueError
      end
  | ArgOther => raise ValueError
  end.

(** [N_runs.setter]. *)
Definition N_runs_setter (N_runs : option Z) : M unit :=
  _ <- (if truthy_int N_runs then modify (set_recycle None) else ret tt) ;;
  modify (set_N_runs N_runs).

(** *** Defaults and tolerances *)

Definition _reset_errors : M unit :=
  _ <- modify (set_mol_error 0) ;;
  _ <- modify (set_rmol_error 0) ;;
  _ <- modify (set_T_error 0) ;;
  _ <- modify (set_rT_error 0) ;;
  modify (set_iter 0%Z).

Definition _load_defaults (cls : class_attributes) : M unit :=
  _ <- modify (set_maxiter (default_maxiter cls)) ;;
  _ <- modify (set_molar_tolerance (default_molar_tolerance cls)) ;;
  _ <- modify (set_relative_molar_tolerance (default_relative_molar_tolerance cls)) ;;
  _ <- modify (set_temperature_tolerance (default_temperature_tolerance cls)) ;;
  _ <- modify (set_relative_temperature_tolerance
                 (default_relative_temperature_tolerance cls)) ;;
  modify (set_converge_method (default_converge_method cls)).

(** [__init__], restricted to the modelled slots; the slots hold no value
    before it runs, which [blank] stands for. *)
Definition blank : t :=
  Build [] None None 0 0 0 0 0%Z 0%Z 0 0 0 0 _fixedpoint.

Definition init (cls : class_attributes) (path : list (element t))
    (recycle : recycle_arg) (N_runs : option Z) : t * result unit :=
  (_ <- recycle_setter recycle ;;
   _ <- N_runs_setter N_runs ;;
   _ <- modify (set_path path) ;;
   _ <- _reset_errors ;;
   _load_defaults cls) blank.

(** [subsystems]: the systems among the path elements. *)
Definition subsystems (s : t) : list t :=
  omap (fun e => match e with Subsystem x => Some x | _ => None end) (_path s).

(** [set_tolerance(mol, rmol, T, rT, subsystems, maxiter)]: the five
    guarded assignments to [self], in source order. *)
Definition set_own_tolerance (self : t) (mol rmol T rT : option Qc)
    (maxiter : option Z) : t :=
  let self := match mol with
              | Some v => if truthy_float mol then set_molar_tolerance v self else self
              | None => self end in
  let self := match rmol with
              | Some v => if truthy_float rmol
                          then set_relative_molar_tolerance v self else self
              | None => self end in
  let self := match T with
              | Some v => if truthy_float T then set_temperature_tolerance v self else self
              | None => self end in
  let self := match rT with
              | Some v => if truthy_float rT then set_temperature_tolerance v self else self
              | None => self end in
  match maxiter with
  | Some v => if truthy_int maxiter then set_maxiter v self else self
  | None => self end.

(** The whole method.  With [subsystems] true the nested systems of the
    path receive the same call; they are objects held by the path, so the
    path afterwards holds the updated systems. *)
Fixpoint set_tolerance (self : t) (mol rmol T rT : option Qc)
    (subsystems : bool) (maxiter : option Z) {struct self} : t :=
  let path := _path self in
  let self' := set_own_tolerance self mol rmol T rT maxiter in
  if subsystems
  then set_path
         (List.map (fun e => match e with
                             | Subsystem i =>
                                 Subsystem (set_tolerance i mol rmol T rT subsystems maxiter)
                             | e => e
                             end) path) self'
  else self'.

(** *** Running one iterate of a recycle loop *)

(** A [for] loop over a list, stopping at the first exception. *)
Fixpoint for_in {A} (l : list A) (body : A -> M unit) : M unit :=
  match l with
  | [] => ret tt
  | x :: l' => _ <- body x ;; for_in l' body
  end.

(** [range(n)]; empty when [n] is not positive. *)
Definition range (n : Z) : list Z := seqZ 0 n.

(** [x.max()] inside a method. *)
Definition amax_or_raise (x : list Qc) : M Qc :=
  match amax x with
  | Some v => ret v
  | None => raise ValueError
  end.

Section Methods.

(** The class the instance belongs to. *)
Variable cls : class_attributes.

(** [thermosteam.functional.infeasible], from the thermosteam package. *)
Variable infeasible : ndarray -> bool.

(** [_run]: replaying the path.  Units and hooks are external, so the
    replay is kept abstract: it may change the tear streams and any slot,
    and may raise. *)
Variable _run : M unit.

(** Calling the bound method held by [_converge_method]; each of them
    hands [_iter_run] to a flexsolve solver. *)
Variable call_converge_method : method -> M unit.

(** [check_recycle_feasibility(material)]; the array is modified in place,
    so the caller goes on with the returned array. *)
Definition check_recycle_feasibility (material : ndarray) : result ndarray :=
  if infeasible material
  then Raise InfeasibleRegion
  else Ok ((fun row : list Qc => (fun x => if Qcltb x 0 then 0 else x) <$> row)
           <$> material).

(** [_get_recycle_data]: one row for a single stream, the stacked rows for
    a collection ([np.vstack] raises [ValueError] on an empty one). *)
Definition _get_recycle_data : M ndarray :=
  self <- get ;;
  match _recycle self with
  | Some (OneStream r) => ret [imol r]
  | Some (Streams []) => raise ValueError
  | Some (Streams l) => ret (imol <$> l)
  | None => raise RuntimeError_no_recycle
  end.

(** [_set_recycle_data(data)]; a wrong number of rows raises [IndexError].
    Rows are taken to have the streams' number of components. *)
Definition _set_recycle_data (data : ndarray) : M unit :=
  self <- get ;;
  match _recycle self with
  | Some (OneStream r) =>
      match data with
      | [row] => modify (set_recycle (Some (OneStream {| imol := row; T := T r |})))
      | _ => raise (IndexError 1 (length data))
      end
  | Some (Streams l) =>
      let N_rows := length data in
      let M_rows := length l in
      if bool_decide (M_rows <> N_rows)
      then raise (IndexError M_rows N_rows)
      else modify (set_recycle
                     (Some (Streams (zip_with (fun i row => {| imol := row; T := T i |})
                                       l data))))
  | None => raise RuntimeError_no_recycle
  end.

(** [_get_recycle_temperatures]. *)
Definition _get_recycle_temperatures : M (list Qc) :=
  self <- get ;;
  match _recycle self with
  | Some (OneStream r) => ret [T r]
  | Some (Streams l) => ret (T <$> l)
  | None => raise RuntimeError_no_recycle
  end.

(** [_error_info]. *)
Definition _error_info (self : t) : option error_info :=
  if truthy_recycle (_recycle self)
  then Some {| info_iter := _iter self;
               info_mol_error := _mol_error self;
               info_rmol_error := _rmol_error self;
               info_T_error := _T_error self;
               info_rT_error := _rT_error self |}
  else None.

(** The convergence criterion tested at the end of [_iter_run], on the
    errors and tolerances stored in [self]. *)
Definition converged (self : t) : bool :=
  (Qcltb (_mol_error self) (molar_tolerance self)
   || Qcltb (_rmol_error self) (relative_molar_tolerance self))
  && (Qcltb (_T_error self) (temperature_tolerance self)
      || Qcltb (_rT_error self) (relative_temperature_tolerance self)).

(** [_iter_run(mol)]: returns [(mol_new, not_converged)]. *)
Definition _iter_run (mol : ndarray) : M (ndarray * bool) :=
  mol <- lift (check_recycle_feasibility mol) ;;
  _ <- _set_recycle_data mol ;;
  T <- _get_recycle_temperatures ;;
  _ <- _run ;;
  mol_new <- _get_recycle_data ;;
  T_new <- _get_recycle_temperatures ;;
  let mol_errors := np_abs (np_sub (concat mol) (concat mol_new)) in
  let positive_index := Qcltb (Q2Qc 1e-16) <$> mol_errors in
  let mol_errors := mask_select positive_index mol_errors in
  _ <- (if bool_decide (length mol_errors = 0%nat)
        then
          _ <- modify (set_mol_error 0) ;;
          modify (set_rmol_error 0)
        else
          mol_error <- amax_or_raise mol_errors ;;
          _ <- modify (set_mol_error mol_error) ;;
          if Qcltb (Q2Qc 1e-12) mol_error
          then
            rmol_error <- amax_or_raise
              (np_div mol_errors
                 (np_maximum (np_abs (mask_select positive_index (concat mol)))
                             (np_abs (mask_select positive_index (concat mol_new))))) ;;
            modify (set_rmol_error rmol_error)
          else modify (set_rmol_error 0)) ;;
  let T_errors := np_abs (np_sub T T_new) in
  T_error <- amax_or_raise T_errors ;;
  _ <- modify (set_T_error T_error) ;;
  rT_error <- amax_or_raise (np_div T_errors T) ;;
  _ <- modify (set_rT_error rT_error) ;;
  _ <- modify (fun self => set_iter (_iter self + 1)%Z self) ;;
  self <- get ;;
  let not_converged := negb (converged self) in
  if not_converged && bool_decide (maxiter self <= _iter self)%Z
  then
    if strict_convergence cls
    then raise (RuntimeError_could_not_converge (_error_info self))
    else ret (mol_new, false)
  else ret (mol_new, not_converged).

(** [_converge]. *)
Definition _converge : M unit :=
  self <- get ;;
  if truthy_int (_N_runs self)
  then for_in (range (default 0%Z (_N_runs self))) (fun i => _run)
  else if truthy_recycle (_recycle self)
       then call_converge_method (_converge_method self)
       else _run.

End Methods.

(** *** Walking the nested systems *)


(** [_extend_recycles(recycles)]: a truthy recycle is appended (a stream)
    or extended with (a collection), then every system of the path does the
    same on the same list. *)
Fixpoint _extend_recycles (self : t) (recycles : list Stream) {struct self}
    : list Stream :=
  let recycle := _recycle self in
  let recycles :=
    if truthy_recycle recycle
    then match recycle with
         | Some (OneStream r) => recycles ++ [r]
         | Some (Streams l) => recycles ++ l
         | None => recycles
         end
    else recycles in
  List.fold_left (fun recycles i => match i with
                                    | Subsystem s => _extend_recycles s recycles
                                    | _ => recycles
                                    end) (_path self) recycles.

(** [get_all_recycles]. *)
Definition get_all_recycles (self : t) : list Stream := _extend_recycles self [].

End System.

(** ** [biosteam/units/phase_equilibrium.py] *)

(** *** Floats with infinities

    The careful solver compares entries with [inf] and [-inf] and relies on
    IEEE division by zero.  [efloat] is an exact rational or one of the
    three special values; arithmetic on finite values is exact, the special
    cases follow IEEE 754 with a single unsigned zero (a zero divisor
    behaves as [+0.]). *)
Inductive efloat :=
| Fin (q : Qc)
| PInf
| NInf
| NaN.

#[global] Instance efloat_eq_decision : EqDecision efloat.
Proof. solve_decision. Defined.

#[global] Instance efloat_inhabited : Inhabited efloat := populate NaN.
#[global] Instance Qc_inhabited : Inhabited Qc := populate 0.

(** The sign of a value, as a comparison with zero. *)
Definition fsign (x : efloat) : comparison :=
  match x with
  | Fin q => q ?= 0
  | PInf => Gt
  | NInf => Lt
  | NaN => Eq
  end.

Definition sign_mul (s1 s2 : comparison) : comparison :=
  match s1, s2 with
  | Eq, _ | _, Eq => Eq
  | Gt, s | s, Gt => s
  | Lt, Lt => Gt
  end.

(** The infinity of a given sign; a zero sign gives NaN ([0 * inf],
    [0 / 0]). *)
Definition signed_inf (s : comparison) : efloat :=
  match s with
  | Gt => PInf
  | Lt => NInf
  | Eq => NaN
  end.

Definition fneg (x : efloat) : efloat :=
  match x with
  | Fin q => Fin (- q)
  | PInf => NInf
  | NInf => PInf
  | NaN => NaN
  end.

Definition fadd (x y : efloat) : efloat :=
  match x, y with
  | NaN, _ | _, NaN => NaN
  | Fin p, Fin q => Fin (p + q)
  | PInf, NInf | NInf, PInf => NaN
  | PInf, _ | _, PInf => PInf
  | NInf, _ | _, NInf => NInf
  end.

Definition fsub (x y : efloat) : efloat := fadd x (fneg y).

Definition fmul (x y : efloat) : efloat :=
  match x, y with
  | NaN, _ | _, NaN => NaN
  | Fin p, Fin q => Fin (p * q)
  | _, _ => signed_inf (sign_mul (fsign x) (fsign y))
  end.

Definition fdiv (x y : efloat) : efloat :=
  match x, y with
  | NaN, _ | _, NaN => NaN
  | Fin p, Fin q => if Qceqb q 0 then signed_inf (p ?= 0) else Fin (p / q)
  | Fin _, _ => Fin 0
  | _, Fin q => signed_inf (sign_mul (fsign x) (if Qceqb q 0 then Gt else q ?= 0))
  | _, _ => NaN
  end.

(** [x == y] and [x < y]; both are false as soon as an operand is NaN. *)
Definition feqb (x y : efloat) : bool :=
  match x, y with
  | Fin p, Fin q => Qceqb p q
  | PInf, PInf | NInf, NInf => true
  | _, _ => false
  end.

Definition fltb (x y : efloat) : bool :=
  match x, y with
  | NaN, _ | _, NaN => false
  | Fin p, Fin q => Qcltb p q
  | NInf, NInf | PInf, _ | _, NInf => false
  | _, _ => true
  end.

(** *** Arithmetic shared by the solvers

    The solvers are written once and run on scalars or on rows; the
    operations on rows are NumPy's elementwise ones. *)
Class Arith (A : Type) := {
  sub : A -> A -> A;
  mul : A -> A -> A;
  div : A -> A -> A }.

#[global] Instance Arith_efloat : Arith efloat :=
  {| sub := fsub; mul := fmul; div := fdiv |}.
#[global] Instance Arith_row {A} `{Arith A} : Arith (list A) :=
  {| sub := zip_with sub; mul := zip_with mul; div := zip_with div |}.

(** [np.nonzero(mask)]: the indices at which the mask holds, ascending. *)
Definition nonzero (mask : list bool) : list nat :=
  omap (fun p : nat * bool => if snd p then Some (fst p) else None)
       (zip (seq 0 (length mask)) mask).

(** [x[x < 0] = 0] on a row. *)
Definition clip_negative (x : list efloat) : list efloat :=
  (fun v => if fltb v (Fin 0) then Fin 0 else v) <$> x.

(** [solve_TDMA(a, b, c, d)]: Thomas' algorithm; [b] and [d] are updated
    in place and [b] is returned.  [a] starts from the first sub-diagonal
    entry.  The function is compiled without bounds checks; an index out
    of range reads the default value here, and the theorems assume the
    shapes the callers pass. *)
Definition solve_TDMA {A} `{Arith A, Inhabited A} (a b c d : list A) : list A :=
  let n := (length d - 1)%nat in
  let '(b, d) :=
    foldl (fun (bd : list A * list A) (i : nat) =>
             let '(b, d) := bd in
             let inext := (i + 1)%nat in
             let m := div (a !!! i) (b !!! i) in
             let b := <[inext := sub (b !!! inext) (mul m (c !!! i))]> b in
             let d := <[inext := sub (d !!! inext) (mul m (d !!! i))]> d in
             (b, d))
          (b, d) (seq 0 n) in
  let b := <[n := div (d !!! n) (b !!! n)]> b in
  foldl (fun (b : list A) (i : nat) =>
           <[i := div (sub (d !!! i) (mul (c !!! i) (b !!! (i + 1)%nat))) (b !!! i)]> b)
        b (rev (seq 0 n)).

(** [solve_TDMA_2D_careful(a, b, c, d, ab_fallback)].  [a], [b], [c] and
    [d] hold one row per stage; a one-dimensional [c], as
    [top_flow_rates] passes it, broadcasts each entry over its row. *)
Definition solve_TDMA_2D_careful (a b c d : list (list efloat))
    (ab_fallback : list efloat) : list (list efloat) :=
  let n := (length d - 1)%nat in
  let '(b, d) :=
    foldl (fun (bd : list (list efloat) * list (list efloat)) (i : nat) =>
             let '(b, d) := bd in
             let inext := (i + 1)%nat in
             let ai := a !!! i in
             let bi := b !!! i in
             let m := bi in
             let inf_mask := (fun x => feqb x PInf) <$> bi in
             let zero_mask := (fun x => feqb x (Fin 0)) <$> bi in
             let ok_mask := zip_with andb (negb <$> inf_mask) (negb <$> zero_mask) in
             let ok_index := nonzero ok_mask in
             let inf_index := nonzero inf_mask in
             let zero_index := nonzero zero_mask in
             let special_index :=
               nonzero (zip_with andb inf_mask ((fun x => feqb x NInf) <$> ai)) in
             let special := ab_fallback !!! i in
             let m := foldl (fun (m : list efloat) j => <[j := Fin 0]> m) m inf_index in
             let m := foldl (fun (m : list efloat) j => <[j := special]> m) m special_index in
             let m := foldl (fun (m : list efloat) j => <[j := PInf]> m) m zero_index in
             let m := foldl (fun (m : list efloat) j =>
                               <[j := div (ai !!! j) (bi !!! j)]> m) m ok_index in
             let b := <[inext := sub (b !!! inext) (mul m (c !!! i))]> b in
             let d := <[inext := sub (d !!! inext) (mul m (d !!! i))]> d in
             (b, d))
          (b, d) (seq 0 n) in
  let bn := div (d !!! n) (b !!! n) in
  let bn := clip_negative bn in
  let b := <[n := bn]> b in
  foldl (fun (b : list (list efloat)) (i : nat) =>
           let bi := div (sub (d !!! i) (mul (c !!! i) (b !!! (i + 1)%nat))) (b !!! i) in
           let bi := clip_negative bi in
           <[i := bi]> b)
        b (rev (seq 0 n)).

(** [solve_RBDMA(b, c, d)]: back substitution on a right (upper)
    bidiagonal system; [b] is updated in place and returned. *)
Definition solve_RBDMA {A} `{Arith A, Inhabited A} (b c d : list A) : list A :=
  let n := (length d - 1)%nat in
  let b := <[n := div (d !!! n) (b !!! n)]> b in
  foldl (fun (b : list A) (i : nat) =>
           <[i := div (sub (d !!! i) (mul (c !!! i) (b !!! (i + 1)%nat))) (b !!! i)]> b)
        b (rev (seq 0 n)).


(** [x <= y] on floats; false as soon as an operand is NaN. *)
Definition fleb (x y : efloat) : bool := fltb x y || feqb x y.

(** [bottoms_stripping_factors_safe(phase_ratios, partition_coefficients)]:
    the stripping factors by stage (rows) and component, and the flag
    telling whether every phase ratio lies strictly between [0] and
    [1e32].  [phase_ratios] has one entry per row of
    [partition_coefficients]; the product of a phase ratio and a row
    broadcasts the ratio over the row, and assigning a scalar to a row
    fills it. *)
Definition bottoms_stripping_factors_safe (phase_ratios : list efloat)
    (partition_coefficients : list (list efloat)) : list (list efloat) * bool :=
  let zero_mask := (fun x => fleb x (Fin 0)) <$> phase_ratios in
  let inf_mask := (fun x => fleb (Fin (Q2Qc 1e32)) x) <$> phase_ratios in
  let ok_mask := zip_with (fun z i => negb z && negb i) zero_mask inf_mask in
  let safe := forallb id ok_mask in
  if safe
  then
    (zip_with (fun r (row : list efloat) => (fun k => fdiv (Fin 1) (fmul r k)) <$> row)
       phase_ratios partition_coefficients, safe)
  else
    let zero_index := nonzero zero_mask in
    let inf_index := nonzero inf_mask in
    let ok_index := nonzero ok_mask in
    let bottoms_stripping_factors :=
      (fun row : list efloat => replicate (length row) (Fin 0))
        <$> partition_coefficients in
    let bottoms_stripping_factors :=
      foldl (fun (bsf : list (list efloat)) (i : nat) =>
               <[i := (fun k => fdiv (Fin 1) (fmul (phase_ratios !!! i) k))
                        <$> (partition_coefficients !!! i)]> bsf)
            bottoms_stripping_factors ok_index in
    let bottoms_stripping_factors :=
      foldl (fun (bsf : list (list efloat)) (i : nat) =>
               <[i := replicate (length (bsf !!! i)) PInf]> bsf)
            bottoms_stripping_factors zero_index in
    let bottoms_stripping_factors :=
      foldl (fun (bsf : list (list efloat)) (i : nat) =>
               <[i := replicate (length (bsf !!! i)) (Fin 0)]> bsf)
            bottoms_stripping_factors inf_index in
    (bottoms_stripping_factors, safe).

(** Elementwise sum, product and negation of one-dimensional arrays. *)
Definition np_add (x y : list Qc) : list Qc := zip_with Qcplus x y.
Definition np_mul (x y : list Qc) : list Qc := zip_with Qcmult x y.
Definition np_neg (x : list Qc) : list Qc := Qcopp <$> x.


(** *** Filling in the stages without a phase equilibrium *)

(** What the three functions below raise. *)
Inductive py_exn :=
| PyValueError
| PyTypeError
| PyAttributeError
| PyIndexError
| PyZeroDivisionError.

Inductive py_result (A : Type) :=
| PyOk (a : A)
| PyRaise (e : py_exn).
Arguments PyOk {A} a.
Arguments PyRaise {A} e.

Definition py_bind {A B} (r : py_result A) (k : A -> py_result B) : py_result B :=
  match r with
  | PyOk a => k a
  | PyRaise e => PyRaise e
  end.

(** An argument that is iterated: a set, or a sequence (a list or a
    tuple), with its items in iteration order. *)
Inductive collection :=
| PySet (l : list Z)
| PySequence (l : list Z).

Definition items (c : collection) : list Z :=
  match c with
  | PySet l => l
  | PySequence l => l
  end.

(** [set(c)], [a.difference(b)] and [a | b] on sets kept as duplicate-free
    lists. *)
Definition py_set (c : collection) : list Z := remove_dups (items c).
Definition set_difference (a b : list Z) : list Z := list_difference a b.
Definition set_union (a b : list Z) : list Z := remove_dups (a ++ b).

Definition is_None {A} (o : option A) : nat :=
  match o with
  | None => 1
  | Some _ => 0
  end.

(** The position [x[k]] reads or writes in an array of [len] entries: a
    negative index counts from the end, and an index outside
    [-len .. len - 1] is out of bounds. *)
Definition position (len : nat) (k : Z) : option nat :=
  if bool_decide (0 <= k < Z.of_nat len)%Z then Some (Z.to_nat k)
  else if bool_decide (- Z.of_nat len <= k < 0)%Z then Some (Z.to_nat (Z.of_nat len + k))
  else None.

Definition getitem {A} (x : list A) (k : Z) : option A :=
  j ← position (length x) k; x !! j.

Definition setitem {A} (x : list A) (k : Z) (v : A) : option (list A) :=
  j ← position (length x) k; Some (<[j := v]> x).

(** [while lb > -1: lb -= 1; if lb in index_set: break]. *)
Equations lb_loop (index_set : list Z) (lb : Z) : Z by wf (Z.to_nat (lb + 1)) lt :=
  lb_loop index_set lb with decide (-1 < lb)%Z := {
    | left _ => if bool_decide ((lb - 1)%Z ∈ index_set) then (lb - 1)%Z
                else lb_loop index_set (lb - 1)%Z
    | right _ => lb }.
Next Obligation. lia. Qed.

(** [while ub < size: ub += 1; if ub in index_set: break]. *)
Equations ub_loop (index_set : list Z) (size ub : Z) : Z
    by wf (Z.to_nat (size - ub)) lt :=
  ub_loop index_set size ub with decide (ub < size)%Z := {
    | left _ => if bool_decide ((ub + 1)%Z ∈ index_set) then (ub + 1)%Z
                else ub_loop index_set size (ub + 1)%Z
    | right _ => ub }.
Next Obligation. lia. Qed.

(** [get_neighbors(index, all_index, missing, size)]: for every missing
    index, the nearest index below and above it that is not missing.  A
    [size] replaces [all_index] by [range(size)]; at least two of [index],
    [all_index] and [missing] must then be known. *)
Definition get_neighbors (index all_index missing : option collection)
    (size : option Z) : py_result (list (Z * list Z)) :=
  let all_index : option (list Z) :=
    match size with
    | Some size => Some (seqZ 0 size)
    | None => py_set <$> all_index
    end in
  if bool_decide (1 < is_None index + is_None all_index + is_None missing)%nat
  then PyRaise PyValueError
  else
    py_bind
      match missing with
      | None =>
          match all_index, index with
          | Some all_index, Some index => PyOk (set_difference all_index (items index))
          | None, _ => PyRaise PyAttributeError
          | _, None => PyRaise PyTypeError
          end
      | Some missing => PyOk (py_set missing)
      end
      (fun missing =>
    py_bind
      match index with
      | None =>
          match all_index with
          | Some all_index => PyOk (set_difference all_index missing)
          | None => PyRaise PyAttributeError
          end
      | Some index => PyOk (py_set index)
      end
      (fun index_set =>
    py_bind
      match all_index with
      | None =>
          match index with
          | Some (PySet index) => PyOk (set_union index missing)
          | _ => PyRaise PyTypeError
          end
      | Some all_index => PyOk all_index
      end
      (fun all_index =>
    let size := Z.of_nat (length all_index) in
    PyOk ((fun i =>
             let lb := lb_loop index_set i in
             let ub := ub_loop index_set size i in
             if bool_decide (ub = size) then (i, [lb])
             else if bool_decide (lb = (-1)%Z) then (i, [ub])
             else (i, [lb; ub])) <$> missing)))).

(** [expand(values, index, size)]: zeros, with [values] written at the
    positions [index]; a later duplicate position wins.  A single value is
    broadcast over the positions.  [None] when numpy raises: another
    length mismatch ([ValueError]) or a position out of bounds
    ([IndexError]). *)
Definition expand (values : list Qc) (index : list Z) (size : nat)
    : option (list Qc) :=
  let new_values := replicate size (0 : Qc) in
  values ← (if bool_decide (length values = length index) then Some values
            else if bool_decide (length values = 1%nat)
                 then Some (replicate (length index) (values !!! 0%nat))
                 else None);
  foldl (fun (acc : option (list Qc)) (kv : Z * Qc) =>
           new_values ← acc; setitem new_values (fst kv) (snd kv))
        (Some new_values) (zip index values).

(** [fillmissing(all_neighbors, values)]: every listed position receives
    the value of its single neighbour, or the average of its two
    neighbours weighted by closeness; [values] is updated in place as the
    list is walked. *)
Fixpoint fillmissing (all_neighbors : list (Z * list Z)) (values : list Qc)
    : py_result (list Qc) :=
  match all_neighbors with
  | [] => PyOk values
  | (i, neighbors) :: all_neighbors =>
      py_bind
        match neighbors with
        | [lb; ub] =>
            let lb_distance := (i - lb)%Z in
            let ub_distance := (ub - i)%Z in
            let sum_distance := (lb_distance + ub_distance)%Z in
            if bool_decide (sum_distance = 0%Z) then PyRaise PyZeroDivisionError
            else
              let wlb := Q2Qc (inject_Z ub_distance) / Q2Qc (inject_Z sum_distance) in
              let wub := Q2Qc (inject_Z lb_distance) / Q2Qc (inject_Z sum_distance) in
              match getitem values lb with
              | None => PyRaise PyIndexError
              | Some vlb =>
                  match getitem values ub with
                  | None => PyRaise PyIndexError
                  | Some vub => PyOk (wlb * vlb + wub * vub)
                  end
              end
        | first :: _ =>
            match getitem values first with
            | None => PyRaise PyIndexError
            | Some v => PyOk v
            end
        | [] => PyRaise PyIndexError
        end
        (fun x =>
           match setitem values i x with
           | None => PyRaise PyIndexError
           | Some values => fillmissing all_neighbors values
           end)
  end.

(** *** Linear fit *)



(** [solve_RBDMA_1D_careful(b, c, d)]: as [solve_RBDMA] on scalars, with a
    zero diagonal entry answered by [0] when the numerator is zero and by
    [inf] otherwise. *)
Definition solve_RBDMA_1D_careful (b c d : list efloat) : list efloat :=
  let n := (length d - 1)%nat in
  let bn := b !!! n in
  let dn := d !!! n in
  let b :=
    if feqb bn (Fin 0)
    then if feqb dn (Fin 0) then <[n := Fin 0]> b else <[n := PInf]> b
    else <[n := fdiv (d !!! n) (b !!! n)]> b in
  foldl (fun (b : list efloat) (i : nat) =>
           let bi := b !!! i in
           let num := fsub (d !!! i) (fmul (c !!! i) (b !!! (i + 1)%nat)) in
           if feqb bi (Fin 0)
           then if feqb num (Fin 0) then <[i := Fin 0]> b else <[i := PInf]> b
           else <[i := fdiv num bi]> b)
        b (rev (seq 0 n)).

Module MultiStageEquilibrium.

(** A stage's partition: its temperature and the temperatures of its
    outlet streams. *)
Record PhasePartition := { T : Qc; outs : list Qc }.

Record StageEquilibrium := { partition : PhasePartition }.

(** The attributes the modelled methods read or write; [data] stands for
    everything else the unit and its streams hold. *)
Record t (Data : Type) := Build {
  use_cache : bool;
  stages : list StageEquilibrium;
  data : Data }.
Arguments Build {Data}.
Arguments use_cache {Data}.
Arguments stages {Data}.
Arguments data {Data}.

Inductive result (E A : Type) :=
| Ok (a : A)
| Raise (e : E).
Arguments Ok {E A} a.
Arguments Raise {E A} e.

Section Methods.

Context {Data : Type}.

(** The exceptions derived from [Exception]. *)
Context {E : Type}.

(** [get_energy_balance_temperature_departures()]. *)
Variable get_energy_balance_temperature_departures : t Data -> list Qc.

(** [all([i.isempty() for i in self.ins])] and emptying the outlets. *)
Variable all_ins_empty : t Data -> bool.
Variable empty_outs : Data -> Data.

(** The [try] block of [_run]: hot start, the configured iteration
    strategy and the overall mass balance correction.  It reads
    [use_cache] and never assigns it, so it returns the other attributes
    only. *)
Variable try_block : t Data -> list StageEquilibrium * Data * result E unit.




(** [_run].  The method calls itself inside the handler; [fuel] bounds the
    depth of that recursion. *)
Fixpoint _run (fuel : nat) (self : t Data) : option (t Data * result E unit) :=
  match fuel with
  | O => None
  | S fuel =>
      if all_ins_empty self
      then Some (Build (use_cache self) (stages self) (empty_outs (data self)), Ok tt)
      else
        let '(stages', data', r) := try_block self in
        let self := Build (use_cache self) stages' data' in
        match r with
        | Ok _ => Some (self, Ok tt)
        | Raise e =>
            if use_cache self
            then
              let self := Build false (stages self) (data self) in
              match _run fuel self with
              | Some (self, r) => Some (Build true (stages self) (data self), r)
              | None => None
              end
            else Some (self, Raise e)
        end
  end.

End Methods.

End MultiStageEquilibrium.

(** * Specification vocabulary *)

(** [m] is the maximum of the list [l]. *)
Definition is_max (m : Qc) (l : list Qc) : Prop :=
  m ∈ l /\ forall x, x ∈ l -> x <= m.

(** A system together with all the systems nested in its path. *)
Fixpoint all_systems (s : System.t) : list System.t :=
  s :: flat_map (fun e => match e with
                          | System.Subsystem x => all_systems x
                          | _ => []
                          end) (System._path s).

(** An assignment through one of the two properties of a system. *)
Inductive assignment :=
| AssignRecycle (v : System.recycle_arg)
| AssignNRuns (v : option Z).

Definition assign (a : assignment) : System.M unit :=
  match a with
  | AssignRecycle v => System.recycle_setter v
  | AssignNRuns v => System.N_runs_setter v
  end.

(** The state after a sequence of assignments; an assignment that raises
    leaves the state it reached, and the next one goes on from there. *)
Fixpoint assign_all (l : list assignment) (s : System.t) : System.t :=
  match l with
  | [] => s
  | a :: l' => assign_all l' (fst (assign a s))
  end.

(** A system holds a repeat count when [_N_runs] is truthy, which is what
    [_converge] tests. *)
Definition holds_repeat_count (s : System.t) : Prop :=
  truthy_int (System._N_runs s) = true.

Definition holds_recycle (s : System.t) : Prop :=
  System._recycle s <> None.

(** What every assignment establishes, whatever the state before it. *)
Definition exclusive (s : System.t) : Prop :=
  holds_repeat_count s -> System._recycle s = None.

(** Replaying the path [n] times in a row, stopping at an exception. *)
Fixpoint replay (n : nat) (run : System.M unit) : System.M unit :=
  match n with
  | O => System.ret tt
  | S n' => System.bind run (fun _ => replay n' run)
  end.

(** *** The convergence test *)

(** The absolute difference of an entry before and after the iterate. *)
Definition abs_difference (p : Qc * Qc) : Qc := Qcabs (fst p - snd p).

(** The entry pairs whose difference exceeds the noise floor [1e-16]. *)
Definition significant (x x_new : list Qc) : list (Qc * Qc) :=
  filter (fun p => Qcltb (Q2Qc 1e-16) (abs_difference p) = true) (zip x x_new).

(** Their differences, and their differences divided entrywise by
    [max(|x|, |x_new|)]. *)
Definition absolute_errors (x x_new : list Qc) : list Qc :=
  abs_difference <$> significant x x_new.

Definition relative_errors (x x_new : list Qc) : list Qc :=
  (fun p => abs_difference p / Qcmax (Qcabs (fst p)) (Qcabs (snd p)))
    <$> significant x x_new.

(** The differences of all entries, and the same divided by the previous
    value. *)
Definition all_differences (x x_new : list Qc) : list Qc :=
  abs_difference <$> zip x x_new.

Definition differences_over_previous (x x_new : list Qc) : list Qc :=
  (fun p => abs_difference p / fst p) <$> zip x x_new.

(** The flow errors an iterate stores: the largest significant difference
    (zero when there is none) and, only when that exceeds [1e-12], the
    largest relative difference (zero otherwise). *)
Definition flow_errors_measured (x x_new : list Qc) (mol_error rmol_error : Qc) : Prop :=
  (absolute_errors x x_new = [] -> mol_error = 0 /\ rmol_error = 0) /\
  (absolute_errors x x_new <> [] ->
     is_max mol_error (absolute_errors x x_new) /\
     (Q2Qc 1e-12 < mol_error -> is_max rmol_error (relative_errors x x_new)) /\
     (mol_error <= Q2Qc 1e-12 -> rmol_error = 0)).

(** The convergence criterion on the errors and tolerances of a system. *)
Definition criterion (s : System.t) : Prop :=
  (System._mol_error s < System.molar_tolerance s
   \/ System._rmol_error s < System.relative_molar_tolerance s)
  /\ (System._T_error s < System.temperature_tolerance s
      \/ System._rT_error s < System.relative_temperature_tolerance s).

(** The class with another failure mode. *)
Definition with_strict_convergence (b : bool) (cls : System.class_attributes)
    : System.class_attributes :=
  {| System.default_maxiter := System.default_maxiter cls;
     System.default_molar_tolerance := System.default_molar_tolerance cls;
     System.default_relative_molar_tolerance :=
       System.default_relative_molar_tolerance cls;
     System.default_temperature_tolerance := System.default_temperature_tolerance cls;
     System.default_relative_temperature_tolerance :=
       System.default_relative_temperature_tolerance cls;
     System.default_converge_method := System.default_converge_method cls;
     System.strict_convergence := b |}.

(** Modelled from the spec: [thermosteam.functional.infeasible] is not part
    of the sources; by the specification a flow array is infeasible when
    some flow is negative beyond a small numerical tolerance [tol]. *)
Definition infeasible_beyond (tol : Qc) (material : list (list Qc)) : bool :=
  existsb (existsb (fun x => Qcltb x (- tol))) material.

(** A system with one tear stream carrying a single component, and a path
    whose replay leaves the tear stream with given flow and temperature. *)
Definition one_stream_system (flow temperature : Qc) : System.t :=
  fst (System.init System.System_class []
         (System.ArgStream {| System.imol := [flow]; System.T := temperature |}) None).

Definition path_giving (flow temperature : Qc) : System.M unit :=
  System.modify
    (System.set_recycle
       (Some (System.OneStream {| System.imol := [flow]; System.T := temperature |}))).

(** *** The multi-stage unit *)


(** One pass through [_run] with the handler left out: the early return
    on empty inlets, or the [try] block and its outcome. *)
Definition attempt {Data E} (all_ins_empty : MultiStageEquilibrium.t Data -> bool)
    (empty_outs : Data -> Data)
    (try_block : MultiStageEquilibrium.t Data ->
                 list MultiStageEquilibrium.StageEquilibrium * Data
                 * MultiStageEquilibrium.result E unit)
    (self : MultiStageEquilibrium.t Data)
    : MultiStageEquilibrium.t Data * MultiStageEquilibrium.result E unit :=
  if all_ins_empty self
  then (MultiStageEquilibrium.Build (MultiStageEquilibrium.use_cache self)
          (MultiStageEquilibrium.stages self)
          (empty_outs (MultiStageEquilibrium.data self)),
        MultiStageEquilibrium.Ok tt)
  else let '(stages', data', r) := try_block self in
       (MultiStageEquilibrium.Build (MultiStageEquilibrium.use_cache self) stages' data', r).

(** The unit with [use_cache] assigned. *)
Definition with_use_cache {Data} (b : bool) (self : MultiStageEquilibrium.t Data)
    : MultiStageEquilibrium.t Data :=
  MultiStageEquilibrium.Build b (MultiStageEquilibrium.stages self)
    (MultiStageEquilibrium.data self).

(** *** The tridiagonal solvers *)

Section Sweeps.
Context {A : Type} `{Arith A, Inhabited A}.

(** One step of the elimination sweep of [solve_TDMA]. *)
Definition eliminate (a c : list A) (bd : list A * list A) (i : nat)
    : list A * list A :=
  let '(b, d) := bd in
  let m := div (a !!! i) (b !!! i) in
  (<[(i + 1)%nat := sub (b !!! (i + 1)%nat) (mul m (c !!! i))]> b,
   <[(i + 1)%nat := sub (d !!! (i + 1)%nat) (mul m (d !!! i))]> d).

(** The back-substitution sweep; [g] is applied to every value it stores
    (the identity in [solve_TDMA], the clip in the careful solver). *)
Definition substitution (g : A -> A) (c d b : list A) (n : nat) : list A :=
  foldl (fun (b : list A) (i : nat) =>
           <[i := g (div (sub (d !!! i) (mul (c !!! i) (b !!! (i + 1)%nat))) (b !!! i))]> b)
        (<[n := g (div (d !!! n) (b !!! n))]> b) (rev (seq 0 n)).

End Sweeps.

(** One step of the elimination sweep of [solve_TDMA_2D_careful]. *)
Definition careful_eliminate (a c : list (list efloat)) (ab_fallback : list efloat)
    (bd : list (list efloat) * list (list efloat)) (i : nat)
    : list (list efloat) * list (list efloat) :=
  let '(b, d) := bd in
  let inext := (i + 1)%nat in
  let ai := a !!! i in
  let bi := b !!! i in
  let m := bi in
  let inf_mask := (fun x => feqb x PInf) <$> bi in
  let zero_mask := (fun x => feqb x (Fin 0)) <$> bi in
  let ok_mask := zip_with andb (negb <$> inf_mask) (negb <$> zero_mask) in
  let ok_index := nonzero ok_mask in
  let inf_index := nonzero inf_mask in
  let zero_index := nonzero zero_mask in
  let special_index :=
    nonzero (zip_with andb inf_mask ((fun x => feqb x NInf) <$> ai)) in
  let special := ab_fallback !!! i in
  let m := foldl (fun (m : list efloat) j => <[j := Fin 0]> m) m inf_index in
  let m := foldl (fun (m : list efloat) j => <[j := special]> m) m special_index in
  let m := foldl (fun (m : list efloat) j => <[j := PInf]> m) m zero_index in
  let m := foldl (fun (m : list efloat) j =>
                    <[j := div (ai !!! j) (bi !!! j)]> m) m ok_index in
  let b := <[inext := sub (b !!! inext) (mul m (c !!! i))]> b in
  let d := <[inext := sub (d !!! inext) (mul m (d !!! i))]> d in
  (b, d).

(** A diagonal entry that is neither zero nor infinite. *)
Definition ordinary (v : efloat) : Prop := v <> PInf /\ v <> Fin 0.

(** No pivot met by the elimination sweep is zero or infinite. *)
Definition ordinary_pivots (a b c d : list (list efloat)) (n : nat) : Prop :=
  forall i, (i < n)%nat ->
    Forall ordinary (fst (foldl (eliminate a c) (b, d) (seq 0 i)) !!! i).

(** No entry is negative (an entry may be NaN). *)
Definition never_negative (x : list (list efloat)) : Prop :=
  Forall (Forall (fun v => fltb v (Fin 0) = false)) x.

(** Every row has [w] entries. *)
Definition rectangular (w : nat) (x : list (list efloat)) : Prop :=
  Forall (fun row => length row = w) x.






(** *** Nested systems and tear streams *)

(** The tear streams a system holds itself. *)
Definition own_recycles (s : System.t) : list System.Stream :=
  match System._recycle s with
  | Some (System.OneStream r) => [r]
  | Some (System.Streams l) => l
  | None => []
  end.


(** *** The bidiagonal solvers *)




(** A back sweep that stores [h num den] for the numerator and the
    diagonal entry of each row. *)
Definition back_sweep {A} `{Arith A, Inhabited A} (h : A -> A -> A)
    (c d b : list A) (n : nat) : list A :=
  foldl (fun (b : list A) (i : nat) =>
           <[i := h (sub (d !!! i) (mul (c !!! i) (b !!! (i + 1)%nat))) (b !!! i)]> b)
        (<[n := h (d !!! n) (b !!! n)]> b) (rev (seq 0 n)).

(** What the careful right bidiagonal solver stores for a row. *)
Definition careful_quotient (num den : efloat) : efloat :=
  if feqb den (Fin 0)
  then if feqb num (Fin 0) then Fin 0 else PInf
  else fdiv num den.

(** *** The energy balance of a stage *)


(** *** Nearest known stages *)

(** [lb] is the greatest member of [index] below [i]; [ub] is the least
    member of [index] above [i]. *)
Definition nearest_below (index : list Z) (i lb : Z) : Prop :=
  lb ∈ index /\ (lb < i)%Z /\ forall k, k ∈ index -> (k < i)%Z -> (k <= lb)%Z.

Definition nearest_above (index : list Z) (i ub : Z) : Prop :=
  ub ∈ index /\ (i < ub)%Z /\ forall k, k ∈ index -> (i < k)%Z -> (ub <= k)%Z.

(** The value [fillmissing] stores for a position with the given
    neighbours, read in the array [r]. *)
Definition interpolated (r : list Qc) (i : Z) (neighbors : list Z) : Qc :=
  match neighbors with
  | [lb; ub] =>
      Q2Qc (inject_Z (ub - i)) / Q2Qc (inject_Z (ub - lb)) * r !!! Z.to_nat lb
      + Q2Qc (inject_Z (i - lb)) / Q2Qc (inject_Z (ub - lb)) * r !!! Z.to_nat ub
  | j :: _ => r !!! Z.to_nat j
  | [] => 0
  end.

(** The entry [get_neighbors] builds for the missing index [i]. *)
Definition neighbors_entry (index_set : list Z) (size i : Z) : Z * list Z :=
  let lb := lb_loop index_set i in
  let ub := ub_loop index_set size i in
  if bool_decide (ub = size) then (i, [lb])
  else if bool_decide (lb = (-1)%Z) then (i, [ub])
  else (i, [lb; ub]).

(** The positions [fillmissing] reads for an entry with the given
    neighbours. *)
Definition reads (neighbors : list Z) : list Z :=
  match neighbors with
  | [lb; ub] => [lb; ub]
  | j :: _ => [j]
  | [] => []
  end.

(** An entry [(i, neighbors)] that [fillmissing] can process on an array
    of [len] values without touching the positions [written]: it reads at
    least one position, every position read is within the array and not
    among [written], and two neighbours are distinct. *)
Definition usable (len : nat) (written : list Z) (entry : Z * list Z) : Prop :=
  (0 <= fst entry < Z.of_nat len)%Z /\
  snd entry <> [] /\
  Forall (fun j => (0 <= j < Z.of_nat len)%Z /\ j ∉ written) (reads (snd entry)) /\
  match snd entry with
  | [lb; ub] => lb <> ub
  | _ => True
  end.

(** *** Sums and squared errors *)



(** * Properties *)

(** ** Comparisons on floats *)

Lemma Qcltb_lt (x y : Qc) : Qcltb x y = true <-> x < y.
Proof.
  unfold Qcltb. rewrite negb_true_iff. split.
  - intros H. apply Qcnot_le_lt. intros Hle.
    apply Qle_bool_iff in Hle. congruence.
  - intros H. destruct (Qle_bool y x) eqn:E; [|reflexivity].
    apply Qle_bool_iff in E. exfalso. exact (Qclt_not_le _ _ H E).
Qed.

Lemma Qcltb_ge (x y : Qc) : Qcltb x y = false <-> y <= x.
Proof.
  split.
  - intros H. apply Qcnot_lt_le. intros Hlt. apply Qcltb_lt in Hlt. congruence.
  - intros H. destruct (Qcltb x y) eqn:E; [|reflexivity].
    apply Qcltb_lt in E. exfalso. exact (Qclt_not_le _ _ E H).
Qed.

Lemma Qceqb_eq (x y : Qc) : Qceqb x y = true <-> x = y.
Proof.
  unfold Qceqb. rewrite Qeq_bool_iff. split.
  - apply Qc_is_canon.
  - intros ->. reflexivity.
Qed.

Lemma Qcmax_ub_l (x y : Qc) : x <= Qcmax x y.
Proof.
  unfold Qcmax. destruct (Qcltb x y) eqn:E.
  - apply Qclt_le_weak, Qcltb_lt, E.
  - apply Qcle_refl.
Qed.

Lemma Qcmax_ub_r (x y : Qc) : y <= Qcmax x y.
Proof.
  unfold Qcmax. destruct (Qcltb x y) eqn:E.
  - apply Qcle_refl.
  - apply Qcltb_ge, E.
Qed.

Lemma Qcmax_case (x y : Qc) : Qcmax x y = x \/ Qcmax x y = y.
Proof. unfold Qcmax. destruct (Qcltb x y); auto. Qed.

(** ** [System]: tolerances *)

Section SystemTolerances.
Import System.

Lemma set_own_tolerance_path self mol rmol T rT maxiter :
  _path (set_own_tolerance self mol rmol T rT maxiter) = _path self.
Proof.
  unfold set_own_tolerance.
  destruct mol, rmol, T, rT, maxiter; simpl;
    repeat match goal with |- context [if ?b then _ else _] => destruct b end;
    reflexivity.
Qed.

Lemma set_own_tolerance_rT_frame self mol rmol T rT maxiter :
  relative_temperature_tolerance (set_own_tolerance self mol rmol T rT maxiter)
  = relative_temperature_tolerance self.
Proof.
  unfold set_own_tolerance.
  destruct mol, rmol, T, rT, maxiter; simpl;
    repeat match goal with |- context [if ?b then _ else _] => destruct b end;
    reflexivity.
Qed.

Lemma set_own_tolerance_rT_assigns self mol rmol T v maxiter :
  truthy_float (Some v) = true ->
  temperature_tolerance (set_own_tolerance self mol rmol T (Some v) maxiter) = v.
Proof.
  intros Hv. unfold set_own_tolerance. rewrite Hv.
  destruct maxiter as [m|]; [destruct (truthy_int (Some m))|]; reflexivity.
Qed.

Lemma set_tolerance_unfold self mol rmol T rT subs maxiter :
  set_tolerance self mol rmol T rT subs maxiter =
  let self' := set_own_tolerance self mol rmol T rT maxiter in
  if subs
  then set_path
         (List.map (fun e => match e with
                             | Subsystem i =>
                                 Subsystem (set_tolerance i mol rmol T rT subs maxiter)
                             | e => e
                             end) (_path self)) self'
  else self'.
Proof. destruct self; reflexivity. Qed.

(** Induction on a system through the systems of its path. *)
Lemma system_nested_ind (P : t -> Prop) :
  (forall s, Forall (fun e => match e with Subsystem x => P x | _ => True end) (_path s)
             -> P s) ->
  forall s, P s.
Proof.
  intros step. fix IH 1. intros [path r n e1 e2 e3 e4 it mx t1 t2 t3 t4 cm].
  apply step. simpl. induction path as [|e path IHpath]; constructor.
  - destruct e as [u|x|f]; [exact I | apply IH | exact I].
  - exact IHpath.
Qed.

Lemma all_systems_unfold s :
  all_systems s =
  s :: flat_map (fun e => match e with
                          | Subsystem x => all_systems x
                          | _ => []
                          end) (_path s).
Proof. destruct s; reflexivity. Qed.

Lemma set_tolerance_rT_frame_all mol rmol T rT subs maxiter self :
  relative_temperature_tolerance <$> all_systems (set_tolerance self mol rmol T rT subs maxiter)
  = relative_temperature_tolerance <$> all_systems self.
Proof.
  induction self as [self IH] using system_nested_ind.
  rewrite set_tolerance_unfold. cbv zeta.
  rewrite (all_systems_unfold self).
  destruct subs.
  - rewrite all_systems_unfold, !fmap_cons. f_equal.
    + change (relative_temperature_tolerance (set_path ?p ?s))
        with (relative_temperature_tolerance s).
      apply set_own_tolerance_rT_frame.
    + change (_path (set_path ?p ?s)) with p.
      induction IH as [|e path He _ IHpath]; [reflexivity|].
      simpl. rewrite !fmap_app. f_equal; [|exact IHpath].
      destruct e as [u|x|f]; [reflexivity | exact He | reflexivity].
  - rewrite all_systems_unfold, set_own_tolerance_path, !fmap_cons.
    f_equal. apply set_own_tolerance_rT_frame.
Qed.

End SystemTolerances.

Section SystemSetters.
Import System.

Lemma set_tolerance_own_temperature self mol rmol T rT subs maxiter :
  temperature_tolerance (set_tolerance self mol rmol T rT subs maxiter)
  = temperature_tolerance (set_own_tolerance self mol rmol T rT maxiter).
Proof. rewrite set_tolerance_unfold. destruct subs; reflexivity. Qed.

(** C9. [set_tolerance] called with a nonzero [rT] stores [float(rT)] in
    the absolute [temperature_tolerance]; no call changes
    [relative_temperature_tolerance], neither of the system nor, with
    [subsystems] set, of any system nested in its path. *)
Theorem set_tolerance_rT_sets_temperature_tolerance
    (self : t) (mol rmol T rT : option Qc) (subs : bool) (maxiter : option Z) :
  let self' := set_tolerance self mol rmol T rT subs maxiter in
  (forall v, rT = Some v -> v <> 0 -> temperature_tolerance self' = v) /\
  relative_temperature_tolerance self' = relative_temperature_tolerance self /\
  relative_temperature_tolerance <$> all_systems self'
  = relative_temperature_tolerance <$> all_systems self.
Proof.
  cbv zeta. split; [|split].
  - intros v -> Hv. rewrite set_tolerance_own_temperature.
    apply set_own_tolerance_rT_assigns. simpl.
    destruct (Qceqb v 0) eqn:E; [|reflexivity].
    apply Qceqb_eq in E. contradiction.
  - pose proof (set_tolerance_rT_frame_all mol rmol T rT subs maxiter self) as H.
    rewrite !all_systems_unfold, !fmap_cons in H. congruence.
  - apply set_tolerance_rT_frame_all.
Qed.

(** ** [System]: recycle and repeat count *)

Lemma recycle_setter_N_runs v s : _N_runs (fst (recycle_setter v s)) = None.
Proof.
  unfold recycle_setter, bind, modify, raise.
  destruct v as [|x|items|]; simpl; try reflexivity.
  destruct (mapM id items); reflexivity.
Qed.

Lemma N_runs_setter_recycle v s :
  truthy_int v = true -> _recycle (fst (N_runs_setter v s)) = None.
Proof. intros H. unfold N_runs_setter, bind, modify. rewrite H. reflexivity. Qed.

Lemma N_runs_setter_N_runs v s : _N_runs (fst (N_runs_setter v s)) = v.
Proof.
  unfold N_runs_setter, bind, modify, ret.
  destruct (truthy_int v); reflexivity.
Qed.

Lemma assign_exclusive a s : exclusive (fst (assign a s)).
Proof.
  unfold exclusive, holds_repeat_count. destruct a as [v|v]; simpl.
  - rewrite recycle_setter_N_runs. discriminate.
  - rewrite N_runs_setter_N_runs. apply N_runs_setter_recycle.
Qed.

Lemma assign_all_exclusive l s : exclusive s -> exclusive (assign_all l s).
Proof.
  revert s. induction l as [|a l IH]; intros s Hs; simpl; [exact Hs|].
  apply IH, assign_exclusive.
Qed.

Lemma init_exclusive cls path r n : exclusive (fst (init cls path r n)).
Proof.
  unfold init.
  pose proof (assign_exclusive (AssignRecycle r) blank) as H1.
  pose proof (fun s => assign_exclusive (AssignNRuns n) s) as H2.
  simpl in H1, H2. unfold bind at 1.
  destruct (recycle_setter r blank) as [s1 [[]|e]] eqn:E1; simpl in H1; [|exact H1].
  unfold bind at 1. specialize (H2 s1).
  destruct (N_runs_setter n s1) as [s2 [[]|e]] eqn:E2; simpl in H2; [|exact H2].
  unfold exclusive, holds_repeat_count in *.
  exact H2.
Qed.

(** C10. A system never holds a recycle and a repeat count at once: a
    truthy value assigned to [N_runs] clears the recycle, any value
    assigned to [recycle] clears [N_runs], and so after construction and
    any sequence of assignments through the two properties the recycle is
    [None] whenever the repeat count is truthy. *)
Theorem recycle_and_repeat_count_exclusive
    (cls : class_attributes) (path : list (element t)) (r : recycle_arg)
    (n : option Z) (l : list assignment) (s : t) (v : option Z) :
  let s' := assign_all l (fst (init cls path r n)) in
  ~ (holds_recycle s' /\ holds_repeat_count s') /\
  (truthy_int v = true -> _recycle (fst (N_runs_setter v s)) = None) /\
  _N_runs (fst (recycle_setter r s)) = None.
Proof.
  cbv zeta. split; [|split].
  - intros [Hr Hn]. apply Hr.
    exact (assign_all_exclusive l _ (init_exclusive cls path r n) Hn).
  - apply N_runs_setter_recycle.
  - apply recycle_setter_N_runs.
Qed.

(** ** [System._converge] *)

Lemma for_in_const {A} (l : list A) (c : M unit) :
  for_in l (fun _ => c) = replay (length l) c.
Proof.
  induction l as [|x l IH]; simpl; [reflexivity|]. rewrite IH. reflexivity.
Qed.

Lemma length_range n : length (range n) = Z.to_nat n.
Proof. unfold range. apply length_seqZ. Qed.

(** C6. [_converge] takes exactly one of three ways.  With a truthy repeat
    count [n] the path is replayed [n] times and nothing else is called;
    otherwise, with a truthy recycle, the method held by
    [_converge_method] is called; otherwise the path is run once. *)
Theorem converge_dispatch (run : M unit) (ccm : method -> M unit) (s : t) :
  (forall n, _N_runs s = Some n -> n <> 0%Z ->
     _converge run ccm s = replay (Z.to_nat n) run s) /\
  (truthy_int (_N_runs s) = false -> truthy_recycle (_recycle s) = true ->
     _converge run ccm s = ccm (_converge_method s) s) /\
  (truthy_int (_N_runs s) = false -> truthy_recycle (_recycle s) = false ->
     _converge run ccm s = run s).
Proof.
  unfold _converge, bind, get. split; [|split].
  - intros n Hn Hnz. rewrite Hn. simpl.
    destruct (n =? 0)%Z eqn:E; [apply Z.eqb_eq in E; contradiction|].
    simpl. rewrite for_in_const, length_range. reflexivity.
  - intros H1 H2. rewrite H1, H2. reflexivity.
  - intros H1 H2. rewrite H1, H2. reflexivity.
Qed.

End SystemSetters.

(** ** [System._iter_run] *)

Section SystemIterate.
Import System.

Lemma bind_eq {A B} (c : M A) (k : A -> M B) s :
  bind c k s = match c s with
               | (s', Ok a) => k a s'
               | (s', Raise e) => (s', Raise e)
               end.
Proof. reflexivity. Qed.

(** One step of a method: split on the outcome of its first call. *)
Ltac bind_step H :=
  rewrite bind_eq in H;
  match type of H with
  | match ?c with _ => _ end = _ =>
      let s1 := fresh "s" in
      let a := fresh "a" in
      let e := fresh "e" in
      let E := fresh "E" in
      destruct c as [s1 [a|e]] eqn:E
  end.

Lemma Qcopp_lt_compat (p q : Qc) : p < q -> - q < - p.
Proof.
  unfold Qclt, Qcopp. intros H. simpl. rewrite !Qred_correct.
  apply Qopp_lt_compat, H.
Qed.

(** Arrays *)

Lemma mask_select_fmap {A B} (key : A -> bool) (val : A -> B) (l : list A) :
  mask_select (key <$> l) (val <$> l) = val <$> filter (fun a => key a = true) l.
Proof.
  unfold mask_select. induction l as [|a l IH]; [reflexivity|].
  rewrite !fmap_cons. simpl zip.
  destruct (key a) eqn:Ha.
  - rewrite !filter_cons_True by (simpl; congruence).
    rewrite !fmap_cons. simpl. f_equal. exact IH.
  - rewrite !filter_cons_False by (simpl; congruence). exact IH.
Qed.

Lemma mask_select_zip_l {A B} (key : A * B -> bool) (x : list A) (y : list B) :
  mask_select (key <$> zip x y) x = fst <$> filter (fun p => key p = true) (zip x y).
Proof.
  unfold mask_select. revert y. induction x as [|a x IH]; intros [|b y]; try reflexivity.
  cbn [zip zip_with fmap list_fmap].
  destruct (key (a, b)) eqn:Ha.
  - rewrite !filter_cons_True by (simpl; congruence).
    cbn [fmap list_fmap snd fst]. f_equal. apply IH.
  - rewrite !filter_cons_False by (simpl; congruence). apply IH.
Qed.

Lemma mask_select_zip_r {A B} (key : A * B -> bool) (x : list A) (y : list B) :
  mask_select (key <$> zip x y) y = snd <$> filter (fun p => key p = true) (zip x y).
Proof.
  unfold mask_select. revert y. induction x as [|a x IH]; intros [|b y]; try reflexivity.
  cbn [zip zip_with fmap list_fmap].
  destruct (key (a, b)) eqn:Ha.
  - rewrite !filter_cons_True by (simpl; congruence).
    cbn [fmap list_fmap snd fst]. f_equal. apply IH.
  - rewrite !filter_cons_False by (simpl; congruence). apply IH.
Qed.

Lemma np_abs_sub (x y : list Qc) : np_abs (np_sub x y) = all_differences x y.
Proof.
  unfold np_abs, np_sub, all_differences.
  revert y. induction x as [|a x IH]; intros [|b y]; try reflexivity.
  cbn [zip zip_with fmap list_fmap]. f_equal. apply IH.
Qed.

Lemma np_div_previous (x y : list Qc) :
  np_div (all_differences x y) x = differences_over_previous x y.
Proof.
  unfold np_div, all_differences, differences_over_previous.
  revert y. induction x as [|a x IH]; intros [|b y]; try reflexivity.
  cbn [zip zip_with fmap list_fmap]. f_equal. apply IH.
Qed.

Lemma np_div_maximum (F : list (Qc * Qc)) :
  np_div (abs_difference <$> F) (np_maximum (np_abs (fst <$> F)) (np_abs (snd <$> F)))
  = (fun p => abs_difference p / Qcmax (Qcabs (fst p)) (Qcabs (snd p))) <$> F.
Proof.
  unfold np_div, np_maximum, np_abs.
  induction F as [|p F IH]; [reflexivity|].
  cbn [zip zip_with fmap list_fmap]. f_equal. exact IH.
Qed.

(** The maximum *)

Lemma foldl_Qcmax_ge (l : list Qc) (x0 : Qc) :
  x0 <= foldl Qcmax x0 l /\ forall x, x ∈ l -> x <= foldl Qcmax x0 l.
Proof.
  revert x0. induction l as [|y l IH]; intros x0; simpl.
  - split; [apply Qcle_refl|]. intros x Hx. inversion Hx.
  - destruct (IH (Qcmax x0 y)) as [H0 Hl]. split.
    + eapply Qcle_trans; [apply Qcmax_ub_l | exact H0].
    + intros x Hx. apply elem_of_cons in Hx as [->|Hx].
      * eapply Qcle_trans; [apply Qcmax_ub_r | exact H0].
      * apply Hl, Hx.
Qed.

Lemma foldl_Qcmax_elem (l : list Qc) (x0 : Qc) : foldl Qcmax x0 l ∈ x0 :: l.
Proof.
  revert x0. induction l as [|y l IH]; intros x0; simpl.
  - apply list_elem_of_here.
  - specialize (IH (Qcmax x0 y)). apply elem_of_cons in IH as [IH|IH].
    + rewrite IH. destruct (Qcmax_case x0 y) as [-> | ->].
      * apply list_elem_of_here.
      * apply list_elem_of_further, list_elem_of_here.
    + apply list_elem_of_further, list_elem_of_further, IH.
Qed.

Lemma amax_is_max (l : list Qc) (m : Qc) : amax l = Some m -> is_max m l.
Proof.
  destruct l as [|x0 l]; [discriminate|]. simpl. intros [= <-]. split.
  - apply foldl_Qcmax_elem.
  - intros x Hx. destruct (foldl_Qcmax_ge l x0) as [H0 Hl].
    apply elem_of_cons in Hx as [->|Hx]; [exact H0 | apply Hl, Hx].
Qed.

Lemma amax_or_raise_ok (l : list Qc) s s' m :
  amax_or_raise l s = (s', Ok m) -> s' = s /\ is_max m l.
Proof.
  unfold amax_or_raise. destruct (amax l) as [v|] eqn:E; [|discriminate].
  intros [= <- <-]. split; [reflexivity | apply amax_is_max, E].
Qed.

(** Reading and writing the tear streams *)

Lemma get_temperatures_ok s s1 Ts :
  _get_recycle_temperatures s = (s1, Ok Ts) ->
  s1 = s /\ forall s2, _recycle s2 = _recycle s ->
                       _get_recycle_temperatures s2 = (s2, Ok Ts).
Proof.
  unfold _get_recycle_temperatures, bind, get, ret, raise.
  destruct (_recycle s) as [[r|l]|] eqn:E; intros [= <- <-];
    (split; [reflexivity|]); intros s2 ->; reflexivity.
Qed.

Lemma get_data_ok s s1 d :
  _get_recycle_data s = (s1, Ok d) ->
  s1 = s /\ forall s2, _recycle s2 = _recycle s -> _get_recycle_data s2 = (s2, Ok d).
Proof.
  unfold _get_recycle_data, bind, get, ret, raise.
  destruct (_recycle s) as [[r|[|x l]]|] eqn:E; intros [= <- <-];
    (split; [reflexivity|]); intros s2 ->; reflexivity.
Qed.

Lemma fmap_T_zip_with (l : list Stream) (data : list (list Qc)) :
  length l = length data ->
  T <$> zip_with (fun i row => {| imol := row; T := T i |}) l data = T <$> l.
Proof.
  revert data. induction l as [|i l IH]; intros [|row data] Hlen;
    try discriminate; [reflexivity|].
  cbn [zip zip_with fmap list_fmap]. f_equal. apply IH. simpl in Hlen. lia.
Qed.

Lemma set_data_keeps_temperatures data s s1 u s2 Ts :
  _set_recycle_data data s = (s1, Ok u) ->
  _get_recycle_temperatures s1 = (s2, Ok Ts) ->
  _get_recycle_temperatures s = (s, Ok Ts).
Proof.
  unfold _set_recycle_data, _get_recycle_temperatures, bind, get, ret, raise, modify.
  destruct (_recycle s) as [[r|l]|] eqn:E.
  - destruct data as [|row [|row' data]]; try discriminate.
    intros [= <- <-]. simpl. intros [= <- <-]. reflexivity.
  - destruct (bool_decide (length l <> length data)) eqn:Hlen; [discriminate|].
    apply bool_decide_eq_false in Hlen.
    intros [= <- <-]. simpl. intros [= <- <-].
    rewrite fmap_T_zip_with; [reflexivity|].
    destruct (decide (length l = length data)); [assumption | contradiction].
  - discriminate.
Qed.

Lemma converged_criterion s : converged s = true <-> criterion s.
Proof.
  unfold converged, criterion.
  rewrite andb_true_iff, !orb_true_iff, !Qcltb_lt. reflexivity.
Qed.

Lemma flow_errors_step (x y : list Qc) (s5 s6 : t) (u : unit) :
  (if bool_decide
        (length
           (mask_select (Qcltb (Q2Qc 1e-16) <$> np_abs (np_sub x y))
              (np_abs (np_sub x y))) = 0%nat)
   then _ <- modify (set_mol_error 0) ;; modify (set_rmol_error 0)
   else
     mol_error <- amax_or_raise
       (mask_select (Qcltb (Q2Qc 1e-16) <$> np_abs (np_sub x y))
          (np_abs (np_sub x y))) ;;
     _ <- modify (set_mol_error mol_error) ;;
     if Qcltb (Q2Qc 1e-12) mol_error
     then
       rmol_error <- amax_or_raise
         (np_div
            (mask_select (Qcltb (Q2Qc 1e-16) <$> np_abs (np_sub x y))
               (np_abs (np_sub x y)))
            (np_maximum
               (np_abs (mask_select (Qcltb (Q2Qc 1e-16) <$> np_abs (np_sub x y)) x))
               (np_abs (mask_select (Qcltb (Q2Qc 1e-16) <$> np_abs (np_sub x y)) y)))) ;;
       modify (set_rmol_error rmol_error)
     else modify (set_rmol_error 0)) s5 = (s6, Ok u) ->
  exists me rme,
    s6 = set_rmol_error rme (set_mol_error me s5) /\
    flow_errors_measured x y me rme.
Proof.
  rewrite np_abs_sub. unfold all_differences.
  rewrite <- (list_fmap_compose abs_difference (Qcltb (Q2Qc 1e-16))).
  rewrite (mask_select_fmap (Qcltb (Q2Qc 1e-16) ∘ abs_difference) abs_difference).
  rewrite (mask_select_zip_l (Qcltb (Q2Qc 1e-16) ∘ abs_difference)).
  rewrite (mask_select_zip_r (Qcltb (Q2Qc 1e-16) ∘ abs_difference)).
  rewrite np_div_maximum.
  change (filter (fun a => (Qcltb (Q2Qc 1e-16) ∘ abs_difference) a = true) (zip x y))
    with (significant x y).
  change (abs_difference <$> significant x y) with (absolute_errors x y).
  change ((fun p => abs_difference p / Qcmax (Qcabs (fst p)) (Qcabs (snd p)))
            <$> significant x y) with (relative_errors x y).
  intros H. unfold flow_errors_measured.
  destruct (bool_decide (length (absolute_errors x y) = 0%nat)) eqn:Hlen.
  - apply bool_decide_eq_true in Hlen. apply length_zero_iff_nil in Hlen.
    unfold bind, modify in H. injection H as <- _.
    exists 0, 0. split; [reflexivity|]. split; [auto|]. intros Hne. contradiction.
  - apply bool_decide_eq_false in Hlen.
    bind_step H; [|discriminate].
    apply amax_or_raise_ok in E as [-> Hmax].
    bind_step H; [|discriminate].
    unfold modify in E. injection E as <- _.
    destruct (Qcltb (Q2Qc 1e-12) a) eqn:Hgate.
    + bind_step H; [|discriminate].
      apply amax_or_raise_ok in E as [-> Hrmax].
      unfold modify in H. injection H as <- _.
      exists a, a1. split; [reflexivity|]. split.
      * intros Hnil. rewrite Hnil in Hlen. contradiction.
      * intros _. split; [exact Hmax|]. split; [intros _; exact Hrmax|].
        intros Hle. apply Qcltb_lt in Hgate.
        exfalso. exact (Qclt_not_le _ _ Hgate Hle).
    + unfold modify in H. injection H as <- _.
      exists a, 0. split; [reflexivity|]. split.
      * intros Hnil. rewrite Hnil in Hlen. contradiction.
      * intros _. split; [exact Hmax|]. split; [|reflexivity].
        intros Hlt. apply Qcltb_lt in Hlt. congruence.
Qed.

(** An iterate either fails before the verdict, in the same way for every
    class, or stores its errors and ends with the verdict. *)
Lemma iter_run_inv cls inf run mol s s' r :
  _iter_run cls inf run mol s = (s', r) ->
  (exists e, r = Raise e /\
             forall cls', _iter_run cls' inf run mol s = (s', Raise e))
  \/
  (exists mol0 Tprev Tnew mol_new,
     check_recycle_feasibility inf mol = Ok mol0 /\
     _get_recycle_temperatures s = (s, Ok Tprev) /\
     _get_recycle_temperatures s' = (s', Ok Tnew) /\
     _get_recycle_data s' = (s', Ok mol_new) /\
     flow_errors_measured (concat mol0) (concat mol_new) (_mol_error s') (_rmol_error s') /\
     is_max (_T_error s') (all_differences Tprev Tnew) /\
     is_max (_rT_error s') (differences_over_previous Tprev Tnew) /\
     forall cls',
       _iter_run cls' inf run mol s =
       (s', if negb (converged s') && bool_decide (maxiter s' <= _iter s')%Z
            then if strict_convergence cls'
                 then Raise (RuntimeError_could_not_converge (_error_info s'))
                 else Ok (mol_new, false)
            else Ok (mol_new, negb (converged s')))).
Proof.
  intros H. unfold _iter_run in H.
  bind_step H.
  2:{ left. injection H as <- <-. exists e. split; [reflexivity|].
      intros cls'. unfold _iter_run. rewrite bind_eq, E. reflexivity. }
  bind_step H.
  2:{ left. injection H as <- <-. exists e. split; [reflexivity|].
      intros cls'. unfold _iter_run. rewrite bind_eq, E.
      rewrite bind_eq, E0. reflexivity. }
  bind_step H.
  2:{ left. injection H as <- <-. exists e. split; [reflexivity|].
      intros cls'. unfold _iter_run. rewrite bind_eq, E.
      rewrite bind_eq, E0. rewrite bind_eq, E1. reflexivity. }
  bind_step H.
  2:{ left. injection H as <- <-. exists e. split; [reflexivity|].
      intros cls'. unfold _iter_run. rewrite bind_eq, E.
      rewrite bind_eq, E0. rewrite bind_eq, E1. rewrite bind_eq, E2. reflexivity. }
  bind_step H.
  2:{ left. injection H as <- <-. exists e. split; [reflexivity|].
      intros cls'. unfold _iter_run. rewrite bind_eq, E.
      rewrite bind_eq, E0. rewrite bind_eq, E1. rewrite bind_eq, E2.
      rewrite bind_eq, E3. reflexivity. }
  bind_step H.
  2:{ left. injection H as <- <-. exists e. split; [reflexivity|].
      intros cls'. unfold _iter_run. rewrite bind_eq, E.
      rewrite bind_eq, E0. rewrite bind_eq, E1. rewrite bind_eq, E2.
      rewrite bind_eq, E3. rewrite bind_eq, E4. reflexivity. }
  cbv zeta in H.
  bind_step H.
  2:{ left. injection H as <- <-. exists e. split; [reflexivity|].
      intros cls'. unfold _iter_run. rewrite bind_eq, E.
      rewrite bind_eq, E0. rewrite bind_eq, E1. rewrite bind_eq, E2.
      rewrite bind_eq, E3. rewrite bind_eq, E4. cbv zeta.
      rewrite bind_eq, E5. reflexivity. }
  bind_step H.
  2:{ left. injection H as <- <-. exists e. split; [reflexivity|].
      intros cls'. unfold _iter_run. rewrite bind_eq, E.
      rewrite bind_eq, E0. rewrite bind_eq, E1. rewrite bind_eq, E2.
      rewrite bind_eq, E3. rewrite bind_eq, E4. cbv zeta.
      rewrite bind_eq, E5. rewrite bind_eq, E6. reflexivity. }
  bind_step H; [|discriminate E7].
  bind_step H.
  2:{ left. injection H as <- <-. exists e. split; [reflexivity|].
      intros cls'. unfold _iter_run. rewrite bind_eq, E.
      rewrite bind_eq, E0. rewrite bind_eq, E1. rewrite bind_eq, E2.
      rewrite bind_eq, E3. rewrite bind_eq, E4. cbv zeta.
      rewrite bind_eq, E5. rewrite bind_eq, E6. rewrite bind_eq, E7.
      rewrite bind_eq, E8. reflexivity. }
  bind_step H; [|discriminate E9].
  bind_step H; [|discriminate E10].
  bind_step H; [|discriminate E11].
  right.
  pose proof E as E'. pose proof E0 as E0'. pose proof E1 as E1'.
  pose proof E3 as E3'. pose proof E4 as E4'. pose proof E5 as E5'.
  pose proof E6 as E6'. pose proof E8 as E8'.
  unfold lift in E'. injection E' as <- Hcheck.
  apply get_temperatures_ok in E1' as [-> HT1].
  apply get_data_ok in E3' as [-> Hdata].
  apply get_temperatures_ok in E4' as [-> HT4].
  apply flow_errors_step in E5' as (me & rme & -> & Hflow).
  apply amax_or_raise_ok in E6' as [-> HTmax].
  unfold modify in E7. injection E7 as <- _.
  apply amax_or_raise_ok in E8' as [-> HrTmax].
  unfold modify in E9. injection E9 as <- _.
  unfold modify in E10. injection E10 as <- _.
  unfold get in E11. injection E11 as <- <-.
  rewrite np_abs_sub in HTmax, HrTmax. rewrite np_div_previous in HrTmax.
  set (sf := set_iter _ (set_rT_error _ _)) in *.
  assert (Hs' : s' = sf).
  { destruct (negb (converged sf) && bool_decide (maxiter sf <= _iter sf)%Z);
      [destruct (strict_convergence cls)|]; injection H as <- _; reflexivity. }
  subst s'.
  exists a, a1, a4, a3.
  split; [exact Hcheck|].
  split; [exact (set_data_keeps_temperatures _ _ _ _ _ _ E0 E1)|].
  split; [apply HT4; reflexivity|].
  split; [apply Hdata; reflexivity|].
  split; [exact Hflow|].
  split; [exact HTmax|].
  split; [exact HrTmax|].
  intros cls'. unfold _iter_run. rewrite bind_eq, E.
  rewrite bind_eq, E0. rewrite bind_eq, E1. rewrite bind_eq, E2.
  rewrite bind_eq, E3. rewrite bind_eq, E4. cbv zeta.
  rewrite bind_eq, E5. rewrite bind_eq, E6. rewrite bind_eq. unfold modify at 1.
  rewrite bind_eq, E8. rewrite bind_eq. unfold modify at 1.
  rewrite bind_eq. unfold modify at 1. rewrite bind_eq. unfold get at 1.
  change (set_iter
            (_iter (set_rT_error a8
                      (set_T_error a6 (set_rmol_error rme (set_mol_error me s3)))) + 1)%Z
            (set_rT_error a8
               (set_T_error a6 (set_rmol_error rme (set_mol_error me s3)))))
    with sf.
  destruct (negb (converged sf) && bool_decide (maxiter sf <= _iter sf)%Z);
    [destruct (strict_convergence cls')|]; reflexivity.
Qed.

(** C1 (amended).  When an iterate returns, the flow errors it stores
    follow the noise-floor pattern: the absolute error is the largest
    [|mol - mol_new|] among the entries where it exceeds [1e-16] (zero when
    there is none) and the relative error, the largest of those differences
    over [max(|mol|, |mol_new|)], is computed only when the absolute error
    exceeds [1e-12] and is zero otherwise.  The temperature errors do not:
    the absolute one is the largest [|T - T_new|] over all tear streams and
    the relative one the largest [|T - T_new| / T], always computed.  An
    iterate that meets the criterion is reported converged, and below the
    iteration budget it is reported converged exactly when it meets it. *)
Theorem iter_run_convergence_test
    (cls : class_attributes) (inf : ndarray -> bool) (run : M unit)
    (mol : ndarray) (s s' : t) (mol_new : ndarray) (nc : bool) :
  _iter_run cls inf run mol s = (s', Ok (mol_new, nc)) ->
  exists mol0 Tprev Tnew,
    check_recycle_feasibility inf mol = Ok mol0 /\
    _get_recycle_temperatures s = (s, Ok Tprev) /\
    _get_recycle_temperatures s' = (s', Ok Tnew) /\
    _get_recycle_data s' = (s', Ok mol_new) /\
    flow_errors_measured (concat mol0) (concat mol_new)
      (_mol_error s') (_rmol_error s') /\
    is_max (_T_error s') (all_differences Tprev Tnew) /\
    is_max (_rT_error s') (differences_over_previous Tprev Tnew) /\
    (criterion s' -> nc = false) /\
    ((_iter s' < maxiter s')%Z -> (nc = false <-> criterion s')).
Proof.
  intros H.
  destruct (iter_run_inv _ _ _ _ _ _ _ H) as [(e & He & _)|Hinv]; [discriminate|].
  destruct Hinv as (mol0 & Tprev & Tnew & mol_new' & Hc & HT & HT' & Hd & Hf & HTe & HrTe & Hv).
  specialize (Hv cls). rewrite H in Hv.
  exists mol0, Tprev, Tnew.
  assert (Hres : mol_new' = mol_new /\
                 (converged s' = true -> nc = false) /\
                 ((_iter s' < maxiter s')%Z -> nc = negb (converged s'))).
  { destruct (converged s') eqn:Hconv; simpl in Hv.
    - injection Hv as -> ->. auto.
    - destruct (bool_decide (maxiter s' <= _iter s')%Z) eqn:Hb.
      + apply bool_decide_eq_true in Hb.
        destruct (strict_convergence cls); [discriminate|].
        injection Hv as -> ->. split; [reflexivity|]. split; [discriminate|]. lia.
      + injection Hv as -> ->. auto. }
  destruct Hres as (-> & Hconv & Hbelow).
  repeat (split; [assumption|]). split.
  - intros Hcrit. apply Hconv, converged_criterion, Hcrit.
  - intros Hlt. rewrite (Hbelow Hlt), <- converged_criterion.
    destruct (converged s'); simpl; split; congruence.
Qed.

(** C2.  The default iteration budget is 200 and strict mode is the class
    default.  When an iterate does not meet the criterion and the iteration
    counter has reached [maxiter], [_iter_run] in lenient mode reports the
    iterate converged, and in strict mode raises [RuntimeError] with the
    error information, at the very same state. *)
Theorem iteration_budget
    (cls : class_attributes) (inf : ndarray -> bool) (run : M unit)
    (mol : ndarray) (s s' : t) (mol_new : ndarray) (nc : bool) :
  _iter_run (with_strict_convergence false cls) inf run mol s
    = (s', Ok (mol_new, nc)) ->
  ~ criterion s' ->
  (maxiter s' <= _iter s')%Z ->
  nc = false /\
  _iter_run (with_strict_convergence true cls) inf run mol s
    = (s', Raise (RuntimeError_could_not_converge (_error_info s'))) /\
  default_maxiter System_class = 200%Z /\
  strict_convergence System_class = true /\
  (forall path r n sys,
     init System_class path r n = (sys, Ok tt) -> maxiter sys = 200%Z).
Proof.
  intros H Hcrit Hbudget.
  destruct (iter_run_inv _ _ _ _ _ _ _ H) as [(e & He & _)|Hinv]; [discriminate|].
  destruct Hinv as (mol0 & Tprev & Tnew & mol_new' & _ & _ & _ & _ & _ & _ & _ & Hv).
  assert (Hconv : converged s' = false).
  { destruct (converged s') eqn:E; [|reflexivity].
    exfalso. apply Hcrit, converged_criterion, E. }
  pose proof (Hv (with_strict_convergence false cls)) as Hl.
  pose proof (Hv (with_strict_convergence true cls)) as Hs.
  rewrite Hconv in Hl, Hs. rewrite bool_decide_eq_true_2 in Hl, Hs by exact Hbudget.
  simpl in Hl, Hs. rewrite H in Hl. injection Hl as _ ->.
  split; [reflexivity|]. split; [exact Hs|]. split; [reflexivity|].
  split; [reflexivity|].
  intros path r n sys Hinit. unfold init in Hinit.
  bind_step Hinit; [|discriminate]. bind_step Hinit; [|discriminate].
  bind_step Hinit; [|discriminate]. bind_step Hinit; [|discriminate].
  injection Hinit as <-. reflexivity.
Qed.

Lemma existsb_true_elem {A} (f : A -> bool) (l : list A) :
  existsb f l = true <-> exists x, x ∈ l /\ f x = true.
Proof.
  rewrite existsb_exists. split; intros (x & Hx & Hf); exists x; split;
    try assumption; apply list_elem_of_In; assumption.
Qed.

Lemma infeasible_beyond_true tol (material : ndarray) :
  infeasible_beyond tol material = true <->
  exists row x, row ∈ material /\ x ∈ row /\ x < - tol.
Proof.
  unfold infeasible_beyond. rewrite existsb_true_elem. split.
  - intros (row & Hrow & Hex). apply existsb_true_elem in Hex as (x & Hx & Hlt).
    exists row, x. repeat split; try assumption. apply Qcltb_lt, Hlt.
  - intros (row & x & Hrow & Hx & Hlt). exists row. split; [assumption|].
    apply existsb_true_elem. exists x. split; [assumption|]. apply Qcltb_lt, Hlt.
Qed.

(** C3.  The flow array handed to an iterate is checked first.  If some
    flow is negative beyond the tolerance, [InfeasibleRegion] is raised
    before the path is run and the system is left as it was; otherwise the
    check returns the array with every negative entry set to zero and every
    other entry unchanged.  With a tolerance between [1e-14] and [1], a
    flow of [-1.0] raises and a flow of [-1e-14] is clipped to zero. *)
Theorem recycle_feasibility_guard
    (tol : Qc) (cls : class_attributes) (run : M unit) (mol : ndarray) (s : t) :
  ((exists row x, row ∈ mol /\ x ∈ row /\ x < - tol) ->
     check_recycle_feasibility (infeasible_beyond tol) mol = Raise InfeasibleRegion /\
     _iter_run cls (infeasible_beyond tol) run mol s = (s, Raise InfeasibleRegion)) /\
  ((forall row x, row ∈ mol -> x ∈ row -> - tol <= x) ->
     exists mol0,
       check_recycle_feasibility (infeasible_beyond tol) mol = Ok mol0 /\
       Forall2 (Forall2 (fun x y => (x < 0 -> y = 0) /\ (0 <= x -> y = x))) mol mol0) /\
  (Q2Qc 1e-14 <= tol -> tol < 1 ->
     check_recycle_feasibility (infeasible_beyond tol) [[Q2Qc (-1)]]
       = Raise InfeasibleRegion /\
     check_recycle_feasibility (infeasible_beyond tol) [[Q2Qc (-1e-14)]]
       = Ok [[0]]).
Proof.
  split; [|split].
  - intros Hneg. apply infeasible_beyond_true in Hneg.
    unfold _iter_run, check_recycle_feasibility. rewrite bind_eq. unfold lift.
    rewrite Hneg. split; reflexivity.
  - intros Hall. unfold check_recycle_feasibility.
    destruct (infeasible_beyond tol mol) eqn:E.
    + apply infeasible_beyond_true in E as (row & x & Hrow & Hx & Hlt).
      exfalso. exact (Qclt_not_le _ _ Hlt (Hall row x Hrow Hx)).
    + eexists. split; [reflexivity|].
      apply Forall2_fmap_r, Forall_Forall2_diag, Forall_forall. intros row _.
      apply Forall2_fmap_r, Forall_Forall2_diag, Forall_forall. intros x _.
      unfold compose. destruct (Qcltb x 0) eqn:Ex.
      * split; [reflexivity|]. intros Hx. apply Qcltb_lt in Ex.
        exfalso. exact (Qclt_not_le _ _ Ex Hx).
      * split; [|reflexivity]. intros Hx. apply Qcltb_lt in Hx. congruence.
  - intros Hlo Hhi. unfold check_recycle_feasibility, infeasible_beyond. simpl.
    rewrite !orb_false_r.
    assert (H1 : Qcltb (Q2Qc (-1)) (- tol) = true).
    { apply Qcltb_lt. apply Qcopp_lt_compat in Hhi. exact Hhi. }
    assert (H2 : Qcltb (Q2Qc (-1e-14)) (- tol) = false).
    { apply Qcltb_ge. apply Qcopp_le_compat in Hlo. exact Hlo. }
    rewrite H1, H2. split; reflexivity.
Qed.

End SystemIterate.

Section SystemWitnesses.
Import System.

Lemma iter_run_convergence_test_witness :
  exists s' mol_new nc,
    _iter_run System_class (infeasible_beyond (Q2Qc 1e-12))
      (path_giving (Q2Qc 10) (Q2Qc 300)) [[Q2Qc 10]]
      (one_stream_system (Q2Qc 10) (Q2Qc 300)) = (s', Ok (mol_new, nc)) /\
    is_max (_T_error s') (all_differences [Q2Qc 300] [Q2Qc 300]) /\
    (criterion s' -> nc = false).
Proof.
  destruct (_iter_run System_class (infeasible_beyond (Q2Qc 1e-12))
              (path_giving (Q2Qc 10) (Q2Qc 300)) [[Q2Qc 10]]
              (one_stream_system (Q2Qc 10) (Q2Qc 300)))
    as [s' [[mol_new nc]|e]] eqn:E.
  - exists s', mol_new, nc. split; [reflexivity|].
    destruct (iter_run_convergence_test _ _ _ _ _ _ _ _ E)
      as (mol0 & Tprev & Tnew & _ & HT & HT' & _ & _ & HTe & _ & Hc & _).
    split; [|exact Hc].
    vm_compute in E. injection E as Hs _ _. subst s'.
    injection HT as <-. injection HT' as <-. exact HTe.
  - exfalso. vm_compute in E. discriminate E.
Defined.

(** C1, as stated, fails on the temperature: with one tear stream going
    from 300 K to 600 K the absolute temperature error is above [1e-12],
    and the relative error the iterate stores is [300/300], not the maximum
    of the differences over [max(|T|, |T_new|)], which is [300/600]. *)
Lemma temperature_error_not_flow_pattern :
  exists s' mol_new nc,
    _iter_run System_class (infeasible_beyond (Q2Qc 1e-12))
      (path_giving (Q2Qc 10) (Q2Qc 600)) [[Q2Qc 10]]
      (one_stream_system (Q2Qc 10) (Q2Qc 300)) = (s', Ok (mol_new, nc)) /\
    Q2Qc 1e-12 < _T_error s' /\
    _rT_error s' = 1 /\
    is_max (Q2Qc 0.5) (relative_errors [Q2Qc 300] [Q2Qc 600]) /\
    ~ is_max (_rT_error s') (relative_errors [Q2Qc 300] [Q2Qc 600]).
Proof.
  destruct (_iter_run System_class (infeasible_beyond (Q2Qc 1e-12))
              (path_giving (Q2Qc 10) (Q2Qc 600)) [[Q2Qc 10]]
              (one_stream_system (Q2Qc 10) (Q2Qc 300)))
    as [s' [[mol_new nc]|e]] eqn:E.
  - exists s', mol_new, nc. split; [reflexivity|].
    vm_compute in E. injection E as Hs _ _. subst s'.
    assert (Hrel : relative_errors [Q2Qc 300] [Q2Qc 600] = [Q2Qc 0.5]).
    { apply (bool_decide_eq_true_1 _). vm_compute. reflexivity. }
    rewrite Hrel.
    split; [vm_compute; reflexivity|].
    split; [apply Qc_is_canon; vm_compute; reflexivity|].
    split.
    + split; [apply list_elem_of_here|].
      intros x Hx. apply list_elem_of_singleton in Hx as ->. apply Qcle_refl.
    + intros [Hin _]. apply list_elem_of_singleton in Hin.
      apply (f_equal this) in Hin. vm_compute in Hin. discriminate Hin.
  - exfalso. vm_compute in E. discriminate E.
Qed.

Lemma iteration_budget_witness :
  exists s' mol_new,
    _iter_run (with_strict_convergence false System_class)
      (infeasible_beyond (Q2Qc 1e-12)) (path_giving (Q2Qc 100) (Q2Qc 600))
      [[Q2Qc 10]] (set_maxiter 1%Z (one_stream_system (Q2Qc 10) (Q2Qc 300)))
    = (s', Ok (mol_new, false)) /\
    ~ criterion s' /\
    (maxiter s' <= _iter s')%Z /\
    _iter_run (with_strict_convergence true System_class)
      (infeasible_beyond (Q2Qc 1e-12)) (path_giving (Q2Qc 100) (Q2Qc 600))
      [[Q2Qc 10]] (set_maxiter 1%Z (one_stream_system (Q2Qc 10) (Q2Qc 300)))
    = (s', Raise (RuntimeError_could_not_converge (_error_info s'))).
Proof.
  destruct (_iter_run (with_strict_convergence false System_class)
              (infeasible_beyond (Q2Qc 1e-12)) (path_giving (Q2Qc 100) (Q2Qc 600))
              [[Q2Qc 10]] (set_maxiter 1%Z (one_stream_system (Q2Qc 10) (Q2Qc 300))))
    as [s' [[mol_new nc]|e]] eqn:E.
  - pose proof E as E0. vm_compute in E0. injection E0 as Hs _ Hnc.
    assert (Hcrit : ~ criterion s').
    { intros Hc. apply converged_criterion in Hc. subst s'.
      vm_compute in Hc. discriminate Hc. }
    assert (Hbudget : (maxiter s' <= _iter s')%Z).
    { subst s'. vm_compute. discriminate. }
    destruct (iteration_budget System_class _ _ _ _ _ _ _ E Hcrit Hbudget)
      as (-> & Hstrict & _).
    exists s', mol_new. repeat split; assumption.
  - exfalso. vm_compute in E. discriminate E.
Defined.

Lemma recycle_feasibility_guard_witness :
  check_recycle_feasibility (infeasible_beyond (Q2Qc 1e-12)) [[Q2Qc (-1)]]
    = Raise InfeasibleRegion /\
  check_recycle_feasibility (infeasible_beyond (Q2Qc 1e-12)) [[Q2Qc (-1e-14)]]
    = Ok [[0]].
Proof.
  apply (proj2 (proj2 (recycle_feasibility_guard (Q2Qc 1e-12) System_class
                         (path_giving 0 0) [] blank))).
  - vm_compute. discriminate.
  - vm_compute. reflexivity.
Defined.

Lemma set_tolerance_rT_sets_temperature_tolerance_witness :
  temperature_tolerance
    (set_tolerance (one_stream_system (Q2Qc 10) (Q2Qc 300))
       None None None (Some (Q2Qc 0.5)) false None) = Q2Qc 0.5 /\
  relative_temperature_tolerance
    (set_tolerance (one_stream_system (Q2Qc 10) (Q2Qc 300))
       None None None (Some (Q2Qc 0.5)) false None) = Q2Qc 0.001.
Proof.
  destruct (set_tolerance_rT_sets_temperature_tolerance
              (one_stream_system (Q2Qc 10) (Q2Qc 300))
              None None None (Some (Q2Qc 0.5)) false None) as (H1 & H2 & _).
  split.
  - apply H1; [reflexivity|]. intros H. apply (f_equal this) in H.
    vm_compute in H. discriminate H.
  - rewrite H2. reflexivity.
Defined.

Lemma recycle_and_repeat_count_exclusive_witness :
  _recycle (fst (N_runs_setter (Some 3%Z) (one_stream_system (Q2Qc 10) (Q2Qc 300))))
  = None.
Proof.
  apply (proj1 (proj2 (recycle_and_repeat_count_exclusive System_class [] ArgNone None []
                         (one_stream_system (Q2Qc 10) (Q2Qc 300)) (Some 3%Z)))).
  reflexivity.
Defined.

Lemma converge_dispatch_witness :
  _converge (modify (fun s => set_iter (_iter s + 1)%Z s)) (fun _ => raise ValueError)
    (set_N_runs (Some 3%Z) blank)
  = replay 3 (modify (fun s => set_iter (_iter s + 1)%Z s)) (set_N_runs (Some 3%Z) blank).
Proof.
  apply (proj1 (converge_dispatch (modify (fun s => set_iter (_iter s + 1)%Z s))
                  (fun _ => raise ValueError) (set_N_runs (Some 3%Z) blank)) 3%Z).
  - reflexivity.
  - discriminate.
Defined.

End SystemWitnesses.

(** ** [MultiStageEquilibrium] *)

Section MultiStage.
Import MultiStageEquilibrium.







(** Two levels of recursion are all [_run] ever uses. *)
Lemma run_total {Data E : Type} (all_ins_empty : t Data -> bool)
    (empty_outs : Data -> Data)
    (try_block : t Data -> list StageEquilibrium * Data * result E unit)
    (fuel : nat) (self : t Data) :
  (2 <= fuel)%nat ->
  _run all_ins_empty empty_outs try_block fuel self
  = _run all_ins_empty empty_outs try_block 2 self /\
  is_Some (_run all_ins_empty empty_outs try_block 2 self).
Proof.
  intros Hfuel. destruct fuel as [|[|fuel]]; [lia | lia |].
  simpl. destruct (all_ins_empty self); [split; eauto|].
  destruct (try_block self) as [[st1 d1] [u|e]]; [split; eauto|].
  simpl. destruct (use_cache self); [|split; eauto].
  destruct (all_ins_empty (Build false st1 d1)); [split; eauto|].
  destruct (try_block (Build false st1 d1)) as [[st2 d2] [u|e2]]; simpl; split; eauto.
Qed.

(** C8.  When the [try] block of [_run] raises while [use_cache] is true,
    the computation is run once more with [use_cache] false, the outcome
    of that single pass (a result or its exception) is the outcome of
    [_run], and [use_cache] is true again afterwards; when [use_cache] is
    false the exception propagates at once. *)
Theorem run_retries_once_without_cache {Data E : Type}
    (all_ins_empty : t Data -> bool) (empty_outs : Data -> Data)
    (try_block : t Data -> list StageEquilibrium * Data * result E unit)
    (fuel : nat) (self : t Data)
    (stages1 : list StageEquilibrium) (data1 : Data) (e : E) :
  all_ins_empty self = false ->
  try_block self = (stages1, data1, Raise e) ->
  (2 <= fuel)%nat ->
  (use_cache self = false ->
     _run all_ins_empty empty_outs try_block fuel self
     = Some (Build false stages1 data1, Raise e)) /\
  (use_cache self = true ->
     let once := attempt all_ins_empty empty_outs try_block
                   (Build false stages1 data1) in
     use_cache (fst once) = false /\
     _run all_ins_empty empty_outs try_block fuel self
     = Some (with_use_cache true (fst once), snd once)).
Proof.
  intros Hne Htry Hfuel.
  rewrite (proj1 (run_total all_ins_empty empty_outs try_block fuel self Hfuel)).
  simpl. rewrite Hne, Htry. simpl. split.
  - intros ->. reflexivity.
  - intros ->. unfold attempt.
    destruct (all_ins_empty (Build false stages1 data1)); [split; reflexivity|].
    destruct (try_block (Build false stages1 data1)) as [[st2 d2] [[]|e2]];
      simpl; split; reflexivity.
Qed.

Lemma run_retries_once_without_cache_witness :
  _run (fun _ : t nat => false) (fun n => n)
    (fun self : t nat => (stages self, S (data self), Raise tt)) 5 (Build true [] 0%nat)
  = Some (Build true [] 2%nat, Raise tt).
Proof.
  apply (proj2 (run_retries_once_without_cache (fun _ : t nat => false) (fun n => n)
                  (fun self : t nat => (stages self, S (data self), Raise tt))
                  5 (Build true [] 0%nat) [] 1%nat tt eq_refl eq_refl
                  ltac:(lia)) eq_refl).
Defined.

End MultiStage.

(** ** The tridiagonal solvers *)

Section GenericSweeps.
Context {A : Type} `{Arith A, Inhabited A}.

Lemma solve_TDMA_sweeps (a b c d : list A) :
  solve_TDMA a b c d =
  let n := (length d - 1)%nat in
  let bd := foldl (eliminate a c) (b, d) (seq 0 n) in
  substitution (fun v => v) c (snd bd) (fst bd) n.
Proof.
  unfold solve_TDMA, substitution. cbv zeta.
  assert (Hstep : forall (l : list nat) (bd : list A * list A),
             foldl (fun (bd : list A * list A) (i : nat) =>
                      let '(b, d) := bd in
                      let inext := (i + 1)%nat in
                      let m := div (a !!! i) (b !!! i) in
                      let b := <[inext := sub (b !!! inext) (mul m (c !!! i))]> b in
                      let d := <[inext := sub (d !!! inext) (mul m (d !!! i))]> d in
                      (b, d)) bd l
             = foldl (eliminate a c) bd l).
  { induction l as [|i l IH]; intros bd; [reflexivity|].
    simpl. rewrite <- IH. destruct bd as [b0 d0]. reflexivity. }
  rewrite Hstep.
  destruct (foldl (eliminate a c) (b, d) (seq 0 (length d - 1))) as [b' d'].
  reflexivity.
Qed.

Lemma eliminate_length (a c : list A) (bd : list A * list A) (i : nat) :
  length (fst (eliminate a c bd i)) = length (fst bd) /\
  length (snd (eliminate a c bd i)) = length (snd bd).
Proof. destruct bd as [b d]. simpl. rewrite !length_insert. auto. Qed.

Lemma foldl_eliminate_S (a c : list A) (bd : list A * list A) (k : nat) :
  foldl (eliminate a c) bd (seq 0 (S k))
  = eliminate a c (foldl (eliminate a c) bd (seq 0 k)) k.
Proof. rewrite seq_S, foldl_app. reflexivity. Qed.

(** What back substitution leaves in the array. *)
Lemma substitution_spec (g : A -> A) (c d b : list A) (n : nat) :
  length b = S n ->
  let x := substitution g c d b n in
  length x = S n /\
  x !!! n = g (div (d !!! n) (b !!! n)) /\
  forall j, (j < n)%nat ->
    x !!! j = g (div (sub (d !!! j) (mul (c !!! j) (x !!! (j + 1)%nat))) (b !!! j)).
Proof.
  intros Hlen. cbv zeta. unfold substitution.
  set (f := fun (b : list A) (i : nat) =>
              <[i := g (div (sub (d !!! i) (mul (c !!! i) (b !!! (i + 1)%nat))) (b !!! i))]> b).
  set (top := g (div (d !!! n) (b !!! n))).
  assert (Hinv : forall m (bm : list A),
             (m <= n)%nat ->
             length bm = S n ->
             bm !!! n = top ->
             (forall j, (m <= j < n)%nat ->
                bm !!! j = g (div (sub (d !!! j) (mul (c !!! j) (bm !!! (j + 1)%nat)))
                                  (b !!! j))) ->
             (forall j, (j < m)%nat -> bm !!! j = b !!! j) ->
             let x := foldl f bm (rev (seq 0 m)) in
             length x = S n /\ x !!! n = top /\
             forall j, (j < n)%nat ->
               x !!! j = g (div (sub (d !!! j) (mul (c !!! j) (x !!! (j + 1)%nat)))
                                (b !!! j))).
  { induction m as [|m IH]; intros bm Hm Hl Htop Hmid Hlow; cbv zeta.
    - simpl. split; [exact Hl|]. split; [exact Htop|].
      intros j Hj. apply Hmid. lia.
    - rewrite seq_S, rev_unit. simpl foldl.
      apply IH.
      + lia.
      + unfold f. rewrite length_insert. exact Hl.
      + unfold f. rewrite list_lookup_total_insert_ne by lia. exact Htop.
      + intros j Hj. unfold f.
        destruct (decide (j = m)) as [->|Hne].
        * rewrite list_lookup_total_insert_eq by lia.
          rewrite list_lookup_total_insert_ne by lia.
          rewrite (Hlow m) by lia. reflexivity.
        * rewrite !list_lookup_total_insert_ne by lia. apply Hmid. lia.
      + intros j Hj. unfold f. rewrite list_lookup_total_insert_ne by lia.
        apply Hlow. lia. }
  apply Hinv.
  - lia.
  - rewrite length_insert. exact Hlen.
  - apply list_lookup_total_insert_eq. lia.
  - intros j Hj. lia.
  - intros j Hj. apply list_lookup_total_insert_ne. lia.
Qed.

End GenericSweeps.

Section Thomas.









End Thomas.

(** ** The careful solver *)

Section Careful.

Lemma solve_TDMA_2D_careful_sweeps (a b c d : list (list efloat))
    (ab_fallback : list efloat) :
  solve_TDMA_2D_careful a b c d ab_fallback =
  let n := (length d - 1)%nat in
  let bd := foldl (careful_eliminate a c ab_fallback) (b, d) (seq 0 n) in
  substitution clip_negative c (snd bd) (fst bd) n.
Proof.
  unfold solve_TDMA_2D_careful, substitution. cbv zeta.
  change (foldl _ (b, d) (seq 0 (length d - 1)))
    with (foldl (careful_eliminate a c ab_fallback) (b, d) (seq 0 (length d - 1))).
  destruct (foldl (careful_eliminate a c ab_fallback) (b, d) (seq 0 (length d - 1)))
    as [b' d'].
  reflexivity.
Qed.

Lemma feqb_PInf (v : efloat) : feqb v PInf = true <-> v = PInf.
Proof. destruct v; simpl; split; congruence. Qed.

Lemma feqb_zero (v : efloat) : feqb v (Fin 0) = true <-> v = Fin 0.
Proof.
  destruct v as [q| | |]; simpl; split; try congruence.
  - intros Hq. apply Qceqb_eq in Hq. congruence.
  - intros [= ->]. apply Qceqb_eq. reflexivity.
Qed.

(** [np.nonzero] of a mask that is false, or true, everywhere. *)
Lemma nonzero_none (mask : list bool) :
  Forall (fun v => v = false) mask -> nonzero mask = [].
Proof.
  unfold nonzero. generalize 0%nat.
  induction mask as [|v mask IH]; intros s Hall; [reflexivity|].
  inversion Hall as [|? ? Hv Hrest]; subst. simpl. apply IH, Hrest.
Qed.

Lemma nonzero_all (mask : list bool) :
  Forall (fun v => v = true) mask -> nonzero mask = seq 0 (length mask).
Proof.
  unfold nonzero. generalize 0%nat.
  induction mask as [|v mask IH]; intros s Hall; [reflexivity|].
  inversion Hall as [|? ? Hv Hrest]; subst. simpl. f_equal. apply IH, Hrest.
Qed.

(** Assigning every index of a row in turn. *)
Lemma foldl_insert_seq {A} (f : nat -> A) (m0 : list A) (k : nat) :
  (k <= length m0)%nat ->
  foldl (fun (m : list A) j => <[j := f j]> m) m0 (seq 0 k)
  = (f <$> seq 0 k) ++ drop k m0.
Proof.
  induction k as [|k IH]; intros Hk; [reflexivity|].
  rewrite seq_S, foldl_app, fmap_app. simpl. rewrite IH by lia.
  destruct (lookup_lt_is_Some_2 m0 k ltac:(lia)) as [x Hx].
  rewrite (drop_S _ _ _ Hx).
  rewrite insert_app_r_alt by (rewrite length_fmap, length_seq; lia).
  rewrite length_fmap, length_seq, Nat.sub_diag. simpl.
  rewrite <- app_assoc. reflexivity.
Qed.

Lemma zip_with_as_fmap_seq (ai bi : list efloat) :
  length ai = length bi ->
  (fun j => fdiv (ai !!! j) (bi !!! j)) <$> seq 0 (length bi) = zip_with fdiv ai bi.
Proof.
  intros Hlen. apply list_eq. intros j.
  rewrite list_lookup_fmap, lookup_zip_with.
  destruct (decide (j < length bi)%nat) as [Hj|Hj].
  - rewrite lookup_seq_lt by exact Hj. simpl.
    destruct (lookup_lt_is_Some_2 ai j ltac:(lia)) as [x Hx].
    destruct (lookup_lt_is_Some_2 bi j Hj) as [y Hy].
    rewrite Hx, Hy. simpl.
    rewrite (list_lookup_total_correct _ _ _ Hx), (list_lookup_total_correct _ _ _ Hy).
    reflexivity.
  - rewrite lookup_seq_ge by lia. simpl.
    rewrite (lookup_ge_None_2 ai j) by lia. reflexivity.
Qed.

(** On a pivot row without zero or infinite entries the careful step is
    the ordinary one. *)
Lemma careful_eliminate_ordinary (a c : list (list efloat)) (fb : list efloat)
    (b d : list (list efloat)) (i : nat) :
  Forall ordinary (b !!! i) ->
  length (a !!! i) = length (b !!! i) ->
  careful_eliminate a c fb (b, d) i = eliminate a c (b, d) i.
Proof.
  intros Hord Hlen. unfold careful_eliminate, eliminate. cbv zeta.
  set (bi := b !!! i) in *. set (ai := a !!! i) in *.
  assert (Hinf : Forall (fun v => v = false) ((fun x => feqb x PInf) <$> bi)).
  { apply Forall_fmap. eapply Forall_impl; [|exact Hord].
    intros v [Hv _]. simpl. destruct (feqb v PInf) eqn:E; [|reflexivity].
    apply feqb_PInf in E. contradiction. }
  assert (Hzero : Forall (fun v => v = false) ((fun x => feqb x (Fin 0)) <$> bi)).
  { apply Forall_fmap. eapply Forall_impl; [|exact Hord].
    intros v [_ Hv]. simpl. destruct (feqb v (Fin 0)) eqn:E; [|reflexivity].
    apply feqb_zero in E. contradiction. }
  assert (Hspecial : Forall (fun v => v = false)
            (zip_with andb ((fun x => feqb x PInf) <$> bi)
               ((fun x => feqb x NInf) <$> ai))).
  { apply Forall_lookup. intros j v Hj. rewrite lookup_zip_with in Hj.
    destruct (((fun x => feqb x PInf) <$> bi) !! j) as [u|] eqn:Hu; [|discriminate].
    simpl in Hj.
    destruct (((fun x => feqb x NInf) <$> ai) !! j) as [u'|]; [|discriminate].
    injection Hj as <-. rewrite (Forall_lookup_1 _ _ _ _ Hinf Hu). reflexivity. }
  assert (Hok : Forall (fun v => v = true)
            (zip_with andb (negb <$> ((fun x => feqb x PInf) <$> bi))
               (negb <$> ((fun x => feqb x (Fin 0)) <$> bi)))).
  { apply Forall_lookup. intros j v Hj. rewrite lookup_zip_with in Hj.
    rewrite !list_lookup_fmap in Hj.
    destruct (bi !! j) as [u|] eqn:Hu; [|discriminate]. simpl in Hj.
    injection Hj as <-.
    pose proof (Forall_lookup_1 _ _ _ _ Hord Hu) as [H1 H2].
    destruct (feqb u PInf) eqn:E1; [apply feqb_PInf in E1; contradiction|].
    destruct (feqb u (Fin 0)) eqn:E2; [apply feqb_zero in E2; contradiction|].
    reflexivity. }
  rewrite (nonzero_none _ Hinf), (nonzero_none _ Hzero), (nonzero_none _ Hspecial).
  rewrite (nonzero_all _ Hok). cbn [foldl].
  rewrite length_zip_with, !length_fmap, Nat.min_id.
  rewrite (foldl_insert_seq (fun j => div (ai !!! j) (bi !!! j)) bi (length bi))
    by lia.
  rewrite drop_all, app_nil_r.
  change (fun j => div (ai !!! j) (bi !!! j))
    with (fun j => fdiv (ai !!! j) (bi !!! j)).
  rewrite (zip_with_as_fmap_seq ai bi Hlen). reflexivity.
Qed.

Lemma row_width (w : nat) (x : list (list efloat)) (i : nat) :
  rectangular w x -> (i < length x)%nat -> length (x !!! i) = w.
Proof. intros Hx Hi. exact (Forall_lookup_total_1 _ _ _ Hx Hi). Qed.

(** The elimination sweep keeps the shapes of [b] and [d]. *)
Lemma elimination_rectangular (a b c d : list (list efloat)) (w n k : nat) :
  length b = S n -> length d = S n ->
  (n <= length a)%nat -> (n <= length c)%nat ->
  rectangular w a -> rectangular w b -> rectangular w c -> rectangular w d ->
  (k <= n)%nat ->
  let bd := foldl (eliminate a c) (b, d) (seq 0 k) in
  length (fst bd) = S n /\ length (snd bd) = S n /\
  rectangular w (fst bd) /\ rectangular w (snd bd).
Proof.
  intros Hb Hd Ha Hc Hwa Hwb Hwc Hwd. cbv zeta.
  induction k as [|k IH]; intros Hk; [simpl; auto|].
  rewrite foldl_eliminate_S.
  destruct IH as (Hlb & Hld & Hrb & Hrd); [lia|].
  destruct (foldl (eliminate a c) (b, d) (seq 0 k)) as [bk dk].
  simpl in Hlb, Hld, Hrb, Hrd. simpl.
  rewrite !length_insert. split; [exact Hlb|]. split; [exact Hld|].
  pose proof (row_width w a k Hwa ltac:(lia)) as Hak.
  pose proof (row_width w c k Hwc ltac:(lia)) as Hck.
  pose proof (row_width w bk k Hrb ltac:(lia)) as Hbk.
  pose proof (row_width w bk (k + 1) Hrb ltac:(lia)) as Hbk1.
  pose proof (row_width w dk k Hrd ltac:(lia)) as Hdk.
  pose proof (row_width w dk (k + 1) Hrd ltac:(lia)) as Hdk1.
  split; apply Forall_insert; try assumption;
    rewrite !length_zip_with; lia.
Qed.

Lemma careful_eliminate_length (a c : list (list efloat)) (fb : list efloat)
    (bd : list (list efloat) * list (list efloat)) (i : nat) :
  length (fst (careful_eliminate a c fb bd i)) = length (fst bd) /\
  length (snd (careful_eliminate a c fb bd i)) = length (snd bd).
Proof.
  destruct bd as [b d]. unfold careful_eliminate. cbv zeta. simpl.
  rewrite !length_insert. auto.
Qed.

Lemma careful_elimination_length (a b c d : list (list efloat)) (fb : list efloat)
    (l : list nat) :
  length (fst (foldl (careful_eliminate a c fb) (b, d) l)) = length b /\
  length (snd (foldl (careful_eliminate a c fb) (b, d) l)) = length d.
Proof.
  induction l as [|i l IH] using rev_ind; [auto|].
  rewrite foldl_app. simpl.
  destruct (careful_eliminate_length a c fb
              (foldl (careful_eliminate a c fb) (b, d) l) i) as [H1 H2].
  rewrite H1, H2. exact IH.
Qed.

(** With ordinary pivots the two elimination sweeps coincide. *)
Lemma careful_elimination_ordinary (a b c d : list (list efloat)) (fb : list efloat)
    (w n : nat) :
  length b = S n -> length d = S n ->
  (n <= length a)%nat -> (n <= length c)%nat ->
  rectangular w a -> rectangular w b -> rectangular w c -> rectangular w d ->
  ordinary_pivots a b c d n ->
  forall k, (k <= n)%nat ->
    foldl (careful_eliminate a c fb) (b, d) (seq 0 k)
    = foldl (eliminate a c) (b, d) (seq 0 k).
Proof.
  intros Hb Hd Ha Hc Hwa Hwb Hwc Hwd Hord.
  induction k as [|k IH]; intros Hk; [reflexivity|].
  rewrite !seq_S, !foldl_app. simpl. rewrite IH by lia.
  pose proof (Hord k ltac:(lia)) as Hpk.
  destruct (elimination_rectangular a b c d w n k Hb Hd Ha Hc Hwa Hwb Hwc Hwd
              ltac:(lia)) as (Hlb & _ & Hrb & _).
  cbv zeta in Hlb, Hrb.
  destruct (foldl (eliminate a c) (b, d) (seq 0 k)) as [bk dk].
  simpl in Hpk, Hlb, Hrb.
  apply careful_eliminate_ordinary; [exact Hpk|].
  rewrite (row_width w a k Hwa) by lia.
  rewrite (row_width w bk k Hrb) by lia. reflexivity.
Qed.

(** The clip *)

Lemma clip_negative_id (row : list efloat) :
  Forall (fun v => fltb v (Fin 0) = false) row -> clip_negative row = row.
Proof.
  intros Hrow. unfold clip_negative.
  rewrite <- (list_fmap_id row) at 2.
  apply Forall_fmap_ext_1. eapply Forall_impl; [|exact Hrow].
  intros v Hv. simpl. rewrite Hv. reflexivity.
Qed.

Lemma clip_negative_never_negative (row : list efloat) :
  Forall (fun v => fltb v (Fin 0) = false) (clip_negative row).
Proof.
  unfold clip_negative. apply Forall_fmap, Forall_forall. intros v _. simpl.
  destruct (fltb v (Fin 0)) eqn:E; [reflexivity | exact E].
Qed.

(** Rows that are never negative are left alone by the clipped back
    substitution. *)
Lemma substitution_clip_id (c d' b' : list (list efloat)) (n : nat) :
  length b' = S n ->
  never_negative (substitution (fun v => v) c d' b' n) ->
  substitution clip_negative c d' b' n = substitution (fun v => v) c d' b' n.
Proof.
  intros Hlen Hnn.
  destruct (substitution_spec (fun v => v) c d' b' n Hlen) as (Hls & Hsn & Hsj).
  destruct (substitution_spec clip_negative c d' b' n Hlen) as (Hlc & Hcn & Hcj).
  cbv zeta in Hls, Hsn, Hsj, Hlc, Hcn, Hcj.
  set (xs := substitution (fun v => v) c d' b' n) in *.
  set (xc := substitution clip_negative c d' b' n) in *.
  assert (Hrow : forall j, (j <= n)%nat ->
             Forall (fun v => fltb v (Fin 0) = false) (xs !!! j)).
  { intros j Hj. apply (Forall_lookup_total_1 _ _ _ Hnn). lia. }
  assert (Heq : forall k, (k <= n)%nat -> xc !!! (n - k)%nat = xs !!! (n - k)%nat).
  { induction k as [|k IH]; intros Hk.
    - rewrite Nat.sub_0_r, Hcn, <- Hsn. apply clip_negative_id, Hrow. lia.
    - rewrite (Hcj (n - S k)%nat) by lia.
      replace (n - S k + 1)%nat with (n - k)%nat by lia.
      rewrite IH by lia.
      replace (n - k)%nat with (n - S k + 1)%nat by lia.
      rewrite <- (Hsj (n - S k)%nat) by lia.
      apply clip_negative_id, Hrow. lia. }
  apply (list_eq_same_length _ _ (S n)); [exact Hls | exact Hlc |].
  intros i v u Hi Hv Hu.
  apply list_lookup_total_correct in Hv, Hu. subst v u.
  specialize (Heq (n - i)%nat ltac:(lia)).
  replace (n - (n - i))%nat with i in Heq by lia. exact Heq.
Qed.

Lemma substitution_clip_never_negative (c d' b' : list (list efloat)) (n : nat) :
  length b' = S n ->
  never_negative (substitution clip_negative c d' b' n).
Proof.
  intros Hlen.
  destruct (substitution_spec clip_negative c d' b' n Hlen) as (Hlc & Hcn & Hcj).
  cbv zeta in Hlc, Hcn, Hcj.
  unfold never_negative. apply (Forall_lookup_total_2 _ _). intros i Hi. rewrite Hlc in Hi.
  destruct (decide (i = n)) as [->|Hne].
  - rewrite Hcn. apply clip_negative_never_negative.
  - rewrite (Hcj i) by lia. apply clip_negative_never_negative.
Qed.

(** An entry whose pivot is infinite and whose numerator is finite. *)
Lemma clipped_quotient_by_inf (num den : list efloat) (k : nat) (q : Qc) :
  den !! k = Some PInf -> num !! k = Some (Fin q) ->
  clip_negative (zip_with fdiv num den) !! k = Some (Fin 0).
Proof.
  intros Hden Hnum. unfold clip_negative.
  rewrite list_lookup_fmap, lookup_zip_with, Hnum, Hden. reflexivity.
Qed.

(** C5 (amended).  On rectangular inputs [solve_TDMA_2D_careful] returns
    the same result as [solve_TDMA] whenever no pivot of the elimination
    is zero or infinite and the result of [solve_TDMA] has no negative
    entry.  In every case each stored row is clipped, so no entry of its
    result is negative; and an entry whose pivot is infinite and whose
    numerator is finite is exactly zero. *)
Theorem careful_solver_agreement
    (a b c d : list (list efloat)) (ab_fallback : list efloat) (w n : nat) :
  length b = S n -> length d = S n ->
  (n <= length a)%nat -> (n <= length c)%nat ->
  rectangular w a -> rectangular w b -> rectangular w c -> rectangular w d ->
  let x := solve_TDMA_2D_careful a b c d ab_fallback in
  let bd := foldl (careful_eliminate a c ab_fallback) (b, d) (seq 0 n) in
  length x = S n /\
  never_negative x /\
  (ordinary_pivots a b c d n -> never_negative (solve_TDMA a b c d) ->
   x = solve_TDMA a b c d) /\
  (forall i k q,
     (i <= n)%nat ->
     (fst bd !!! i) !! k = Some PInf ->
     (if bool_decide (i = n) then snd bd !!! i
      else sub (snd bd !!! i) (mul (c !!! i) (x !!! (i + 1)%nat))) !! k
       = Some (Fin q) ->
     (x !!! i) !! k = Some (Fin 0)).
Proof.
  intros Hb Hd Ha Hc Hwa Hwb Hwc Hwd. cbv zeta.
  rewrite solve_TDMA_2D_careful_sweeps. cbv zeta.
  rewrite Hd. replace (S n - 1)%nat with n by lia.
  destruct (careful_elimination_length a b c d ab_fallback (seq 0 n)) as [Hlb' _].
  rewrite Hb in Hlb'.
  split; [|split; [|split]].
  - exact (proj1 (substitution_spec clip_negative c _ _ n Hlb')).
  - apply substitution_clip_never_negative, Hlb'.
  - intros Hord Hnn.
    rewrite solve_TDMA_sweeps in Hnn |- *. cbv zeta in Hnn |- *.
    rewrite Hd in Hnn |- *. replace (S n - 1)%nat with n in Hnn |- * by lia.
    rewrite (careful_elimination_ordinary a b c d ab_fallback w n
               Hb Hd Ha Hc Hwa Hwb Hwc Hwd Hord n (Nat.le_refl n)) in Hlb' |- *.
    apply substitution_clip_id; assumption.
  - intros i k q Hi Hpivot Hnum.
    destruct (substitution_spec clip_negative c
                (snd (foldl (careful_eliminate a c ab_fallback) (b, d) (seq 0 n)))
                (fst (foldl (careful_eliminate a c ab_fallback) (b, d) (seq 0 n)))
                n Hlb') as (_ & Hxn & Hxj).
    cbv zeta in Hxn, Hxj.
    destruct (decide (i = n)) as [->|Hne].
    + rewrite bool_decide_eq_true_2 in Hnum by reflexivity.
      rewrite Hxn. exact (clipped_quotient_by_inf _ _ k q Hpivot Hnum).
    + rewrite bool_decide_eq_false_2 in Hnum by exact Hne.
      rewrite (Hxj i) by lia. exact (clipped_quotient_by_inf _ _ k q Hpivot Hnum).
Qed.

Lemma careful_solver_agreement_witness :
  solve_TDMA_2D_careful [[Fin 1]; [Fin 1]] [[Fin (Q2Qc 2)]; [Fin (Q2Qc 2)]; [Fin (Q2Qc 2)]]
    [[Fin 1]; [Fin 1]] [[Fin (Q2Qc 4)]; [Fin (Q2Qc 8)]; [Fin (Q2Qc 8)]]
    [Fin 0; Fin 0; Fin 0]
  = solve_TDMA [[Fin 1]; [Fin 1]] [[Fin (Q2Qc 2)]; [Fin (Q2Qc 2)]; [Fin (Q2Qc 2)]]
      [[Fin 1]; [Fin 1]] [[Fin (Q2Qc 4)]; [Fin (Q2Qc 8)]; [Fin (Q2Qc 8)]].
Proof.
  apply (proj1 (proj2 (proj2
           (careful_solver_agreement
              [[Fin 1]; [Fin 1]] [[Fin (Q2Qc 2)]; [Fin (Q2Qc 2)]; [Fin (Q2Qc 2)]]
              [[Fin 1]; [Fin 1]] [[Fin (Q2Qc 4)]; [Fin (Q2Qc 8)]; [Fin (Q2Qc 8)]]
              [Fin 0; Fin 0; Fin 0] 1 2 eq_refl eq_refl
              (Nat.le_refl 2) (Nat.le_refl 2)
              ltac:(repeat constructor) ltac:(repeat constructor)
              ltac:(repeat constructor) ltac:(repeat constructor))))).
  - intros i Hi. destruct i as [|[|i]]; [| |lia]; unfold ordinary;
      apply (bool_decide_eq_true_1 _); vm_compute; reflexivity.
  - unfold never_negative. apply (bool_decide_eq_true_1 _). vm_compute. reflexivity.
Defined.

(** C5, as stated, fails twice.  On a system without any zero or infinite
    diagonal entry whose solution has a negative component the careful
    solver returns the clipped value, not the solution; and a zero
    diagonal entry leads to NaN, not to a zero or nonnegative result. *)
Lemma careful_solver_differs :
  Forall (Forall ordinary) [[Fin 1]; [Fin 1]] /\
  solve_TDMA [[Fin 0]] [[Fin 1]; [Fin 1]] [[Fin 0]] [[Fin (- 1)]; [Fin 1]]
  = [[Fin (- 1)]; [Fin 1]] /\
  solve_TDMA_2D_careful [[Fin 0]] [[Fin 1]; [Fin 1]] [[Fin 0]] [[Fin (- 1)]; [Fin 1]]
    [Fin 0; Fin 0]
  = [[Fin 0]; [Fin 1]] /\
  solve_TDMA_2D_careful [[Fin 1]] [[Fin 0]; [Fin (Q2Qc 2)]] [[Fin (- 1)]]
    [[Fin (Q2Qc 4)]; [Fin (Q2Qc 8)]] [Fin 0; Fin 0]
  = [[NaN]; [NaN]].
Proof.
  split; [|split; [|split]].
  - unfold ordinary. apply (bool_decide_eq_true_1 _). vm_compute. reflexivity.
  - apply (bool_decide_eq_true_1 _). vm_compute. reflexivity.
  - apply (bool_decide_eq_true_1 _). vm_compute. reflexivity.
  - apply (bool_decide_eq_true_1 _). vm_compute. reflexivity.
Qed.

End Careful.

(** A stage with zero phase ratio, as [top_flow_rates] hands it over: the
    stripping factor is infinite, so the diagonal entry is [inf], the
    sub-diagonal entry is [-inf] and the multiplier falls back to
    [bsplit_1].  The top flow of that stage comes out as zero and its feed
    reaches the next stage. *)
Example careful_solver_all_bottoms_stage :
  solve_TDMA_2D_careful [[NInf]; [Fin (- 1)]] [[PInf]; [Fin (Q2Qc 2)]] [[Fin (- 1)]]
    [[Fin (Q2Qc 4)]; [Fin (Q2Qc 8)]] [Fin (- 1); Fin (- 1)]
  = [[Fin 0]; [Fin (Q2Qc 12)]].
Proof. apply (bool_decide_eq_true_1 _). vm_compute. reflexivity. Qed.

(** ** The bidiagonal solvers *)

Section BackSweep.
Context {A : Type} `{Arith A, Inhabited A}.

(** What a back sweep leaves in the array. *)
Lemma back_sweep_spec (h : A -> A -> A) (c d b : list A) (n : nat) :
  length b = S n ->
  let x := back_sweep h c d b n in
  length x = S n /\
  x !!! n = h (d !!! n) (b !!! n) /\
  forall j, (j < n)%nat ->
    x !!! j = h (sub (d !!! j) (mul (c !!! j) (x !!! (j + 1)%nat))) (b !!! j).
Proof.
  intros Hlen. cbv zeta. unfold back_sweep.
  set (f := fun (b : list A) (i : nat) =>
              <[i := h (sub (d !!! i) (mul (c !!! i) (b !!! (i + 1)%nat))) (b !!! i)]> b).
  set (top := h (d !!! n) (b !!! n)).
  assert (Hinv : forall m (bm : list A),
             (m <= n)%nat ->
             length bm = S n ->
             bm !!! n = top ->
             (forall j, (m <= j < n)%nat ->
                bm !!! j = h (sub (d !!! j) (mul (c !!! j) (bm !!! (j + 1)%nat)))
                             (b !!! j)) ->
             (forall j, (j < m)%nat -> bm !!! j = b !!! j) ->
             let x := foldl f bm (rev (seq 0 m)) in
             length x = S n /\ x !!! n = top /\
             forall j, (j < n)%nat ->
               x !!! j = h (sub (d !!! j) (mul (c !!! j) (x !!! (j + 1)%nat)))
                           (b !!! j)).
  { induction m as [|m IH]; intros bm Hm Hl Htop Hmid Hlow; cbv zeta.
    - simpl. split; [exact Hl|]. split; [exact Htop|].
      intros j Hj. apply Hmid. lia.
    - rewrite seq_S, rev_unit. simpl foldl.
      apply IH.
      + lia.
      + unfold f. rewrite length_insert. exact Hl.
      + unfold f. rewrite list_lookup_total_insert_ne by lia. exact Htop.
      + intros j Hj. unfold f.
        destruct (decide (j = m)) as [->|Hne].
        * rewrite list_lookup_total_insert_eq by lia.
          rewrite list_lookup_total_insert_ne by lia.
          rewrite (Hlow m) by lia. reflexivity.
        * rewrite !list_lookup_total_insert_ne by lia. apply Hmid. lia.
      + intros j Hj. unfold f. rewrite list_lookup_total_insert_ne by lia.
        apply Hlow. lia. }
  apply Hinv.
  - lia.
  - rewrite length_insert. exact Hlen.
  - apply list_lookup_total_insert_eq. lia.
  - intros j Hj. lia.
  - intros j Hj. apply list_lookup_total_insert_ne. lia.
Qed.

Lemma solve_RBDMA_back_sweep (b c d : list A) :
  solve_RBDMA b c d = back_sweep div c d b (length d - 1).
Proof. reflexivity. Qed.

End BackSweep.

Section Bidiagonal.



End Bidiagonal.

Section LowerBidiagonal.





End LowerBidiagonal.

Section CarefulBidiagonal.

Lemma foldl_pointwise {A B} (f g : A -> B -> A) (l : list B) (a : A) :
  (forall a b, f a b = g a b) -> foldl f a l = foldl g a l.
Proof.
  intros Hfg. revert a. induction l as [|y l IH]; intros a; simpl.
  - reflexivity.
  - rewrite Hfg. apply IH.
Qed.

Lemma solve_RBDMA_1D_careful_back_sweep (b c d : list efloat) :
  solve_RBDMA_1D_careful b c d = back_sweep careful_quotient c d b (length d - 1).
Proof.
  unfold solve_RBDMA_1D_careful, back_sweep, careful_quotient. cbv zeta.
  set (n := (length d - 1)%nat).
  assert (Hinit :
    (if feqb (b !!! n) (Fin 0)
     then if feqb (d !!! n) (Fin 0) then <[n := Fin 0]> b else <[n := PInf]> b
     else <[n := fdiv (d !!! n) (b !!! n)]> b)
    = <[n := if feqb (b !!! n) (Fin 0)
             then if feqb (d !!! n) (Fin 0) then Fin 0 else PInf
             else fdiv (d !!! n) (b !!! n)]> b).
  { destruct (feqb (b !!! n) (Fin 0)); [|reflexivity].
    destruct (feqb (d !!! n) (Fin 0)); reflexivity. }
  rewrite Hinit. clear Hinit. apply foldl_pointwise.
  intros b0 i.
  change (@sub efloat Arith_efloat) with fsub.
  change (@mul efloat Arith_efloat) with fmul.
  destruct (feqb (b0 !!! i) (Fin 0)); [|reflexivity].
  destruct (feqb (fsub (d !!! i) (fmul (c !!! i) (b0 !!! (i + 1)%nat))) (Fin 0));
    reflexivity.
Qed.

(** Two back sweeps whose quotients agree on every denominator of the
    diagonal compute the same array. *)
Lemma back_sweep_ext {A} `{Arith A, Inhabited A} (h h' : A -> A -> A)
    (c d b : list A) (n : nat) :
  length b = S n ->
  (forall i num, (i <= n)%nat -> h num (b !!! i) = h' num (b !!! i)) ->
  back_sweep h c d b n = back_sweep h' c d b n.
Proof.
  intros Hb Hh.
  destruct (back_sweep_spec h c d b n Hb) as (Hlx & Hxn & Hxj).
  destruct (back_sweep_spec h' c d b n Hb) as (Hly & Hyn & Hyj).
  cbv zeta in *.
  set (x := back_sweep h c d b n) in *. set (y := back_sweep h' c d b n) in *.
  assert (Heq : forall k, (k <= n)%nat -> x !!! (n - k)%nat = y !!! (n - k)%nat).
  { induction k as [|k IH]; intros Hk.
    - replace (n - 0)%nat with n by lia. rewrite Hxn, Hyn. apply Hh. lia.
    - rewrite (Hxj (n - S k)%nat), (Hyj (n - S k)%nat) by lia.
      replace (n - S k + 1)%nat with (n - k)%nat by lia.
      rewrite (IH ltac:(lia)). apply Hh. lia. }
  apply (list_eq_same_length _ _ (S n)); [exact Hly | exact Hlx |].
  intros i v w Hi Hv Hw.
  apply list_lookup_total_correct in Hv, Hw. subst v w.
  specialize (Heq (n - i)%nat ltac:(lia)).
  replace (n - (n - i))%nat with i in Heq by lia. exact Heq.
Qed.

(** X3.  When no diagonal entry compares equal to zero, the careful right
    bidiagonal solver returns exactly what [solve_RBDMA] returns. *)
Theorem solve_RBDMA_1D_careful_agrees (b c d : list efloat) (n : nat) :
  length b = S n -> length d = S n ->
  (forall i, (i <= n)%nat -> feqb (b !!! i) (Fin 0) = false) ->
  solve_RBDMA_1D_careful b c d = solve_RBDMA b c d.
Proof.
  intros Hb Hd Hnz.
  rewrite solve_RBDMA_1D_careful_back_sweep, solve_RBDMA_back_sweep, Hd.
  replace (S n - 1)%nat with n by lia.
  apply back_sweep_ext; [exact Hb|].
  intros i num Hi. unfold careful_quotient. rewrite (Hnz i Hi). reflexivity.
Qed.

Lemma solve_RBDMA_1D_careful_agrees_witness :
  solve_RBDMA_1D_careful [Fin (Q2Qc 2); Fin (Q2Qc 4)] [Fin 1] [Fin (Q2Qc 5); Fin (Q2Qc 8)]
  = solve_RBDMA [Fin (Q2Qc 2); Fin (Q2Qc 4)] [Fin 1] [Fin (Q2Qc 5); Fin (Q2Qc 8)].
Proof.
  apply (solve_RBDMA_1D_careful_agrees
           [Fin (Q2Qc 2); Fin (Q2Qc 4)] [Fin 1] [Fin (Q2Qc 5); Fin (Q2Qc 8)] 1
           eq_refl eq_refl).
  intros i Hi. destruct i as [|[|i]]; [reflexivity | reflexivity | lia].
Defined.

(** X4.  Where a diagonal entry of the careful right bidiagonal solver
    compares equal to zero, the unknown of that row is [0] when the
    numerator ([d[n]] in the last row, [d[i] - c[i]*x[i+1]] above it)
    compares equal to zero and [+inf] otherwise, whatever the numerator's
    sign. *)
Theorem solve_RBDMA_1D_careful_zero_diagonal (b c d : list efloat) (n i : nat) :
  length b = S n -> length d = S n -> (i <= n)%nat ->
  feqb (b !!! i) (Fin 0) = true ->
  let x := solve_RBDMA_1D_careful b c d in
  let num := if bool_decide (i = n) then d !!! n
             else fsub (d !!! i) (fmul (c !!! i) (x !!! (i + 1)%nat)) in
  x !!! i = if feqb num (Fin 0) then Fin 0 else PInf.
Proof.
  intros Hb Hd Hi Hz. cbv zeta.
  rewrite solve_RBDMA_1D_careful_back_sweep, Hd.
  replace (S n - 1)%nat with n by lia.
  destruct (back_sweep_spec careful_quotient c d b n Hb) as (_ & Hxn & Hxj).
  cbv zeta in Hxn, Hxj.
  destruct (decide (i = n)) as [->|Hne].
  - rewrite bool_decide_eq_true_2 by reflexivity.
    rewrite Hxn. unfold careful_quotient. rewrite Hz. reflexivity.
  - rewrite bool_decide_eq_false_2 by exact Hne.
    rewrite (Hxj i) at 1 by lia. unfold careful_quotient. rewrite Hz. reflexivity.
Qed.

Lemma solve_RBDMA_1D_careful_zero_diagonal_witness :
  solve_RBDMA_1D_careful [Fin 0; Fin (Q2Qc 4)] [Fin 1] [Fin (- 1); Fin (Q2Qc 8)] !!! 0%nat
  = PInf.
Proof.
  exact (solve_RBDMA_1D_careful_zero_diagonal
           [Fin 0; Fin (Q2Qc 4)] [Fin 1] [Fin (- 1); Fin (Q2Qc 8)] 1 0
           eq_refl eq_refl (Nat.le_0_l 1) eq_refl).
Defined.

End CarefulBidiagonal.

(** ** Tear-stream data and nested systems *)

Section SystemRecycleData.
Import System.


Lemma zip_with_imol_id (l : list Stream) :
  zip_with (fun i row => {| imol := row; T := T i |}) l (imol <$> l) = l.
Proof.
  induction l as [|[m temp] l IH]; [reflexivity|].
  cbn [zip_with fmap list_fmap]. f_equal. exact IH.
Qed.

Lemma set_recycle_same (s : t) : set_recycle (_recycle s) s = s.
Proof. destruct s; reflexivity. Qed.



(** X6.  Reading the tear-stream flows and writing them back changes
    nothing: when [_get_recycle_data] returns [data],
    [_set_recycle_data(data)] succeeds and leaves the system as it was. *)
Theorem get_then_set_recycle_data (data : ndarray) (s s' : t) :
  _get_recycle_data s = (s', Ok data) ->
  s' = s /\ _set_recycle_data data s = (s, Ok tt).
Proof.
  unfold _set_recycle_data, _get_recycle_data, bind, get, ret, raise, modify.
  destruct (_recycle s) as [[r|l]|] eqn:E.
  - intros [= <- <-]. split; [reflexivity|].
    destruct r as [m temp]. simpl. rewrite <- E, set_recycle_same. reflexivity.
  - intros Hget.
    assert (Hd : s' = s /\ data = imol <$> l).
    { destruct l; [discriminate|]. injection Hget as <- <-. split; reflexivity. }
    destruct Hd as [-> ->]. split; [reflexivity|].
    rewrite length_fmap, bool_decide_eq_false_2 by (intros Hn; apply Hn; reflexivity).
    rewrite zip_with_imol_id, <- E, set_recycle_same. reflexivity.
  - discriminate.
Qed.

Lemma get_then_set_recycle_data_witness :
  _set_recycle_data [[Q2Qc 10]] (one_stream_system (Q2Qc 10) (Q2Qc 300))
  = (one_stream_system (Q2Qc 10) (Q2Qc 300), Ok tt).
Proof.
  assert (Hget : _get_recycle_data (one_stream_system (Q2Qc 10) (Q2Qc 300))
                 = (one_stream_system (Q2Qc 10) (Q2Qc 300), Ok [[Q2Qc 10]])).
  { vm_compute. reflexivity. }
  exact (proj2 (get_then_set_recycle_data _ _ _ Hget)).
Defined.



(** X8.  A system without a recycle has no tear-stream data: the three
    accessors raise [RuntimeError('no recycle available')], and so does
    [_iter_run] on any array that passes the feasibility check, before the
    path is run; the system is left untouched every time. *)
Theorem no_recycle_available
    (cls : class_attributes) (inf : ndarray -> bool) (run : M unit)
    (mol : ndarray) (s : t) :
  _recycle s = None ->
  _get_recycle_data s = (s, Raise RuntimeError_no_recycle) /\
  _set_recycle_data mol s = (s, Raise RuntimeError_no_recycle) /\
  _get_recycle_temperatures s = (s, Raise RuntimeError_no_recycle) /\
  (inf mol = false ->
   _iter_run cls inf run mol s = (s, Raise RuntimeError_no_recycle)).
Proof.
  intros Hr.
  assert (Hset : forall data, _set_recycle_data data s = (s, Raise RuntimeError_no_recycle)).
  { intros data. unfold _set_recycle_data, bind, get, raise. rewrite Hr. reflexivity. }
  repeat split.
  - unfold _get_recycle_data, bind, get, raise. rewrite Hr. reflexivity.
  - apply Hset.
  - unfold _get_recycle_temperatures, bind, get, raise. rewrite Hr. reflexivity.
  - intros Hinf. unfold _iter_run, check_recycle_feasibility.
    rewrite Hinf. rewrite bind_eq. unfold lift. rewrite bind_eq, Hset. reflexivity.
Qed.

Lemma no_recycle_available_witness :
  _get_recycle_data (fst (init System_class [] ArgNone None))
  = (fst (init System_class [] ArgNone None), Raise RuntimeError_no_recycle).
Proof.
  assert (Hr : _recycle (fst (init System_class [] ArgNone None)) = None).
  { vm_compute. reflexivity. }
  exact (proj1 (no_recycle_available System_class (fun _ => false) (ret tt) []
                  (fst (init System_class [] ArgNone None)) Hr)).
Defined.

End SystemRecycleData.

Section SystemNested.
Import System.


Lemma _extend_recycles_unfold self recycles :
  _extend_recycles self recycles =
  List.fold_left (fun recycles i => match i with
                                    | Subsystem s => _extend_recycles s recycles
                                    | _ => recycles
                                    end) (_path self)
    (if truthy_recycle (_recycle self)
     then match _recycle self with
          | Some (OneStream r) => recycles ++ [r]
          | Some (Streams l) => recycles ++ l
          | None => recycles
          end
     else recycles).
Proof. destruct self; reflexivity. Qed.

Lemma truthy_own_recycles (s : t) (recycles : list Stream) :
  (if truthy_recycle (_recycle s)
   then match _recycle s with
        | Some (OneStream r) => recycles ++ [r]
        | Some (Streams l) => recycles ++ l
        | None => recycles
        end
   else recycles) = recycles ++ own_recycles s.
Proof.
  unfold own_recycles, truthy_recycle.
  destruct (_recycle s) as [[r|[|x l]]|]; simpl; rewrite ?app_nil_r; reflexivity.
Qed.


(** X10.  [get_all_recycles] lists the tear streams of the system itself,
    then those of every nested system, depth first in path order; a
    system holding no recycle (or an empty collection) contributes
    nothing, and [_extend_recycles] only appends to the list it is
    given. *)
Theorem get_all_recycles_depth_first (self : t) (recycles : list Stream) :
  _extend_recycles self recycles = recycles ++ get_all_recycles self /\
  get_all_recycles self = flat_map own_recycles (all_systems self).
Proof.
  assert (Hext : forall s rs,
            _extend_recycles s rs = rs ++ flat_map own_recycles (all_systems s)).
  { intros s. induction s as [s IH] using system_nested_ind. intros rs.
    rewrite _extend_recycles_unfold, truthy_own_recycles, all_systems_unfold.
    cbn [flat_map]. rewrite app_assoc.
    generalize (rs ++ own_recycles s) as acc.
    induction IH as [|e path He _ IHpath]; intros acc.
    - simpl. rewrite app_nil_r. reflexivity.
    - cbn [List.fold_left flat_map]. rewrite flat_map_app, app_assoc.
      rewrite <- IHpath. f_equal.
      destruct e as [u|x|f]; [simpl; rewrite app_nil_r; reflexivity
                             | apply He
                             | simpl; rewrite app_nil_r; reflexivity]. }
  split.
  - unfold get_all_recycles. rewrite !Hext. reflexivity.
  - unfold get_all_recycles. rewrite Hext. reflexivity.
Qed.

End SystemNested.

(** ** Stripping factors *)

Section StrippingFactors.

Lemma elem_of_nonzero (mask : list bool) (j : nat) :
  j ∈ nonzero mask <-> mask !! j = Some true.
Proof.
  unfold nonzero. rewrite list_elem_of_omap. split.
  - intros [[k b] [Hin Hsome]]. simpl in Hsome.
    destruct b; [|discriminate]. injection Hsome as ->.
    apply list_elem_of_lookup_1 in Hin as [i Hi].
    apply lookup_zip_with_Some in Hi as (x & y & Heq & Hx & Hy).
    injection Heq as -> ->.
    apply lookup_seq in Hx as [-> _]. exact Hy.
  - intros Hj. exists (j, true). split; [|reflexivity].
    apply (list_elem_of_lookup_2 _ j).
    apply lookup_zip_with_Some. exists j, true. split; [reflexivity|].
    split; [|exact Hj]. apply lookup_seq. split; [reflexivity|].
    apply lookup_lt_Some in Hj. exact Hj.
Qed.

(** Assigning given rows at the indices of a list. *)
Lemma foldl_insert_lookup {A} (v : nat -> A) (l : list nat) (m0 : list A) (j : nat) :
  foldl (fun (m : list A) i => <[i := v i]> m) m0 l !! j
  = if decide (j ∈ l) then (fun _ => v j) <$> (m0 !! j) else m0 !! j.
Proof.
  revert m0. induction l as [|i l IH]; intros m0; cbn [foldl].
  - rewrite decide_False by apply not_elem_of_nil. reflexivity.
  - rewrite IH. destruct (decide (j = i)) as [->|Hne].
    + rewrite (decide_True (P := i ∈ i :: l)) by apply list_elem_of_here.
      destruct (decide (i < length m0)%nat) as [Hi|Hi].
      * rewrite list_lookup_insert_eq by exact Hi.
        destruct (lookup_lt_is_Some_2 m0 i Hi) as [x ->].
        destruct (decide (i ∈ l)); reflexivity.
      * rewrite list_insert_ge by lia.
        rewrite (lookup_ge_None_2 m0 i) by lia.
        destruct (decide (i ∈ l)); reflexivity.
    + rewrite list_lookup_insert_ne by (intros Heq; apply Hne; symmetry; exact Heq).
      destruct (decide (j ∈ l)) as [Hin|Hin].
      * rewrite decide_True by (apply list_elem_of_further; exact Hin). reflexivity.
      * rewrite decide_False; [reflexivity|].
        intros Hin'. apply elem_of_cons in Hin' as [Heq|Hin']; contradiction.
Qed.

(** Filling the rows at the indices of a list with a constant. *)
Lemma foldl_fill_lookup (c : efloat) (l : list nat) (m0 : list (list efloat)) (j : nat) :
  foldl (fun (m : list (list efloat)) i => <[i := replicate (length (m !!! i)) c]> m) m0 l !! j
  = if decide (j ∈ l)
    then (fun row : list efloat => replicate (length row) c) <$> (m0 !! j)
    else m0 !! j.
Proof.
  revert m0. induction l as [|i l IH]; intros m0; cbn [foldl].
  - rewrite decide_False by apply not_elem_of_nil. reflexivity.
  - rewrite IH. destruct (decide (j = i)) as [->|Hne].
    + rewrite (decide_True (P := i ∈ i :: l)) by apply list_elem_of_here.
      destruct (decide (i < length m0)%nat) as [Hi|Hi].
      * rewrite list_lookup_insert_eq by exact Hi.
        destruct (lookup_lt_is_Some_2 m0 i Hi) as [x Hx].
        rewrite (list_lookup_total_correct _ _ _ Hx), Hx. simpl.
        destruct (decide (i ∈ l)); [|reflexivity].
        rewrite length_replicate. reflexivity.
      * rewrite list_insert_ge by lia.
        rewrite (lookup_ge_None_2 m0 i) by lia.
        destruct (decide (i ∈ l)); reflexivity.
    + rewrite list_lookup_insert_ne by (intros Heq; apply Hne; symmetry; exact Heq).
      destruct (decide (j ∈ l)) as [Hin|Hin].
      * rewrite decide_True by (apply list_elem_of_further; exact Hin). reflexivity.
      * rewrite decide_False; [reflexivity|].
        intros Hin'. apply elem_of_cons in Hin' as [Heq|Hin']; contradiction.
Qed.

Lemma forallb_id_fmap {A} (f : A -> bool) (l : list A) :
  forallb id (f <$> l) = true <-> Forall (fun x => f x = true) l.
Proof.
  induction l as [|x l IH]; simpl.
  - split; [constructor | reflexivity].
  - unfold id at 1. rewrite andb_true_iff, IH. split.
    + intros [Hx Hl]. constructor; assumption.
    + intros H. inversion H; subst. split; assumption.
Qed.

(** No float is both at most [0] and at least [1e32]. *)
Lemma fleb_zero_not_inf (r : efloat) :
  fleb r (Fin 0) = true -> fleb (Fin (Q2Qc 1e32)) r = false.
Proof.
  destruct r as [q| | |]; unfold fleb; simpl; try discriminate; [|reflexivity].
  intros H0. apply orb_true_iff in H0.
  assert (Hq : q <= 0).
  { destruct H0 as [H0|H0].
    - apply Qcltb_lt in H0. apply Qclt_le_weak. exact H0.
    - apply Qceqb_eq in H0. subst q. apply Qcle_refl. }
  assert (Hpos : 0 < Q2Qc 1e32) by reflexivity.
  apply orb_false_iff. split.
  - apply Qcltb_ge. apply Qclt_le_weak. eapply Qcle_lt_trans; eassumption.
  - destruct (Qceqb (Q2Qc 1e32) q) eqn:E; [|reflexivity].
    apply Qceqb_eq in E. subst q. exfalso.
    exact (Qclt_not_le _ _ Hpos Hq).
Qed.

(** X11.  The stripping factors follow one rule per stage, whichever
    branch computes them: a stage whose phase ratio is at most [0] gets
    [+inf] for every component, a stage whose phase ratio is at least
    [1e32] gets [0], and any other stage gets [1 / (ratio * K)]
    componentwise.  The flag is true exactly when every phase ratio is
    neither at most [0] nor at least [1e32]. *)
Theorem bottoms_stripping_factors_by_stage
    (phase_ratios : list efloat) (partition_coefficients : list (list efloat)) :
  length phase_ratios = length partition_coefficients ->
  let B := fst (bottoms_stripping_factors_safe phase_ratios partition_coefficients) in
  let safe := snd (bottoms_stripping_factors_safe phase_ratios partition_coefficients) in
  (safe = true <->
   Forall (fun r => fleb r (Fin 0) = false /\ fleb (Fin (Q2Qc 1e32)) r = false)
     phase_ratios) /\
  length B = length partition_coefficients /\
  forall i r row,
    phase_ratios !! i = Some r -> partition_coefficients !! i = Some row ->
    B !! i = Some (if fleb r (Fin 0) then replicate (length row) PInf
                   else if fleb (Fin (Q2Qc 1e32)) r then replicate (length row) (Fin 0)
                   else (fun k => fdiv (Fin 1) (fmul r k)) <$> row).
Proof.
  intros Hlen. cbv zeta. unfold bottoms_stripping_factors_safe. cbv zeta.
  set (ok := fun r : efloat => negb (fleb r (Fin 0)) && negb (fleb (Fin (Q2Qc 1e32)) r)).
  assert (Hmask : zip_with (fun z i : bool => negb z && negb i)
                    ((fun x => fleb x (Fin 0)) <$> phase_ratios)
                    ((fun x => fleb (Fin (Q2Qc 1e32)) x) <$> phase_ratios)
                  = ok <$> phase_ratios).
  { rewrite zip_with_fmap_l, zip_with_fmap_r, zip_with_diag. reflexivity. }
  rewrite Hmask.
  assert (Hsafe : forallb id (ok <$> phase_ratios) = true <->
                  Forall (fun r => fleb r (Fin 0) = false /\
                                   fleb (Fin (Q2Qc 1e32)) r = false) phase_ratios).
  { rewrite forallb_id_fmap. apply Forall_iff. intros r. unfold ok.
    rewrite andb_true_iff, !negb_true_iff. reflexivity. }
  destruct (forallb id (ok <$> phase_ratios)) eqn:Esafe; cbn [fst snd].
  - split; [exact Hsafe|]. split.
    + rewrite length_zip_with. lia.
    + intros i r row Hr Hrow. rewrite lookup_zip_with, Hr, Hrow. simpl.
      destruct Hsafe as [Hsafe _]. specialize (Hsafe eq_refl).
      rewrite Forall_lookup in Hsafe. destruct (Hsafe i r Hr) as [-> ->].
      reflexivity.
  - split; [exact Hsafe|]. split.
    + assert (Hl : forall (g : list (list efloat) -> nat -> list efloat) l m0,
                length (foldl (fun m i => <[i := g m i]> m) m0 l) = length m0).
      { intros g l. induction l as [|i l IH]; intros m0; [reflexivity|].
        simpl. rewrite IH, length_insert. reflexivity. }
      rewrite (Hl (fun m i => replicate (length (m !!! i)) (Fin 0))).
      rewrite (Hl (fun m i => replicate (length (m !!! i)) PInf)).
      rewrite (Hl (fun _ i => (fun k => fdiv (Fin 1) (fmul (phase_ratios !!! i) k))
                                <$> partition_coefficients !!! i)).
      apply length_fmap.
    + intros i r row Hr Hrow.
      rewrite foldl_fill_lookup, foldl_fill_lookup.
      rewrite (foldl_insert_lookup
                 (fun i => (fun k => fdiv (Fin 1) (fmul (phase_ratios !!! i) k))
                             <$> partition_coefficients !!! i)).
      rewrite list_lookup_fmap, Hrow.
      rewrite (list_lookup_total_correct _ _ _ Hr),
              (list_lookup_total_correct _ _ _ Hrow).
      assert (Hz : i ∈ nonzero ((fun x => fleb x (Fin 0)) <$> phase_ratios)
                   <-> fleb r (Fin 0) = true).
      { rewrite elem_of_nonzero, list_lookup_fmap, Hr. simpl.
        split; [intros [= ->]; reflexivity | intros ->; reflexivity]. }
      assert (Hi : i ∈ nonzero ((fun x => fleb (Fin (Q2Qc 1e32)) x) <$> phase_ratios)
                   <-> fleb (Fin (Q2Qc 1e32)) r = true).
      { rewrite elem_of_nonzero, list_lookup_fmap, Hr. simpl.
        split; [intros [= ->]; reflexivity | intros ->; reflexivity]. }
      assert (Ho : i ∈ nonzero (ok <$> phase_ratios) <-> ok r = true).
      { rewrite elem_of_nonzero, list_lookup_fmap, Hr. simpl.
        split; [intros [= ->]; reflexivity | intros ->; reflexivity]. }
      pose proof (fleb_zero_not_inf r) as Hexcl.
      unfold ok in Ho.
      destruct (fleb r (Fin 0)) eqn:Ez.
      * rewrite (Hexcl eq_refl) in *.
        rewrite (decide_False (P := i ∈ nonzero (_ <$> phase_ratios)))
          by (intros Hin; apply Hi in Hin; discriminate).
        rewrite (decide_True (P := i ∈ nonzero (_ <$> phase_ratios)))
          by (apply Hz; reflexivity).
        rewrite decide_False by (intros Hin; apply Ho in Hin; discriminate).
        simpl. rewrite length_replicate. reflexivity.
      * destruct (fleb (Fin (Q2Qc 1e32)) r) eqn:Ei.
        -- rewrite (decide_True (P := i ∈ nonzero (_ <$> phase_ratios)))
             by (apply Hi; reflexivity).
           rewrite (decide_False (P := i ∈ nonzero (_ <$> phase_ratios)))
             by (intros Hin; apply Hz in Hin; discriminate).
           rewrite decide_False by (intros Hin; apply Ho in Hin; discriminate).
           simpl. rewrite length_replicate. reflexivity.
        -- rewrite (decide_False (P := i ∈ nonzero (_ <$> phase_ratios)))
             by (intros Hin; apply Hi in Hin; discriminate).
           rewrite (decide_False (P := i ∈ nonzero (_ <$> phase_ratios)))
             by (intros Hin; apply Hz in Hin; discriminate).
           rewrite decide_True by (apply Ho; reflexivity).
           reflexivity.
Qed.

Lemma bottoms_stripping_factors_by_stage_witness :
  fst (bottoms_stripping_factors_safe [Fin 0; Fin (Q2Qc 2)] [[Fin 1]; [Fin (Q2Qc 4)]])
    !! 0%nat = Some [PInf].
Proof.
  exact (proj2 (proj2 (bottoms_stripping_factors_by_stage
                         [Fin 0; Fin (Q2Qc 2)] [[Fin 1]; [Fin (Q2Qc 4)]] eq_refl))
           0%nat (Fin 0) [Fin 1] eq_refl eq_refl).
Defined.

End StrippingFactors.

(** ** Temperature departures *)

Section TemperatureDepartures.





Section Coefficients.
Variables (Cv Cl Hv Hl asplit_left bsplit_left H_feeds : list Qc) (n : nat).
Hypothesis HCv : length Cv = S n.
Hypothesis HCl : length Cl = S n.
Hypothesis HHv : length Hv = S n.
Hypothesis HHl : length Hl = S n.
Hypothesis Has : length asplit_left = S n.
Hypothesis Hbs : length bsplit_left = S n.
Hypothesis HHf : length H_feeds = S n.

Let a := np_neg (np_mul Cl bsplit_left).
Let b := np_add Cv Cl.
Let c := np_neg (drop 1 (np_mul Cv asplit_left)).
Let d0 := np_sub (np_sub H_feeds Hl) Hv.
Let d1 := take 1 d0
          ++ np_add (drop 1 d0)
               (take (length (np_mul Hl bsplit_left) - 1) (np_mul Hl bsplit_left)).
Let d := np_add (take (length d1 - 1) d1) (drop 1 (np_mul Hv asplit_left))
         ++ drop (length d1 - 1) d1.













End Coefficients.

End TemperatureDepartures.

Section EnergyBalance.





End EnergyBalance.

Section EnergyBalanceWitnesses.



End EnergyBalanceWitnesses.

(** ** Filling in missing stages *)

Section Neighbors.

Lemma lb_loop_step (s : list Z) (lb : Z) :
  lb_loop s lb = if decide (-1 < lb)%Z
                 then if bool_decide ((lb - 1)%Z ∈ s) then (lb - 1)%Z
                      else lb_loop s (lb - 1)%Z
                 else lb.
Proof. rewrite lb_loop_equation_1. destruct (decide (-1 < lb)%Z); reflexivity. Qed.

Lemma ub_loop_step (s : list Z) (size ub : Z) :
  ub_loop s size ub = if decide (ub < size)%Z
                      then if bool_decide ((ub + 1)%Z ∈ s) then (ub + 1)%Z
                           else ub_loop s size (ub + 1)%Z
                      else ub.
Proof. rewrite ub_loop_equation_1. destruct (decide (ub < size)%Z); reflexivity. Qed.

(** The downward search stops at the nearest member below, or at [-1]. *)
Lemma lb_loop_spec (s : list Z) (i : Z) :
  (-1 < i)%Z ->
  (-1 <= lb_loop s i < i)%Z /\
  (lb_loop s i ∈ s \/ lb_loop s i = (-1)%Z) /\
  forall k, k ∈ s -> (lb_loop s i < k)%Z -> ~ (k < i)%Z.
Proof.
  remember (Z.to_nat (i + 1)) as m eqn:Hm. revert i Hm.
  induction (lt_wf m) as [m _ IH]. intros i Hm Hi.
  rewrite lb_loop_step. rewrite decide_True by exact Hi.
  destruct (bool_decide ((i - 1)%Z ∈ s)) eqn:E.
  - apply bool_decide_eq_true in E. split; [lia|]. split; [left; exact E|].
    intros k _ Hk. lia.
  - apply bool_decide_eq_false in E.
    destruct (decide (-1 < i - 1)%Z) as [Hi'|Hi'].
    + destruct (IH (Z.to_nat (i - 1 + 1)) ltac:(lia) (i - 1)%Z eq_refl Hi')
        as (Hr & Hin & Hmax).
      split; [lia|]. split; [exact Hin|].
      intros k Hk Hlt Hki.
      destruct (decide (k = i - 1)%Z) as [->|Hne]; [contradiction|].
      apply (Hmax k Hk Hlt). lia.
    + rewrite lb_loop_step. rewrite decide_False by exact Hi'.
      split; [lia|]. split; [right; lia|].
      intros k Hk Hlt Hki. lia.
Qed.

(** The upward search stops at the nearest member above, or at [size]. *)
Lemma ub_loop_spec (s : list Z) (size i : Z) :
  (i < size)%Z ->
  (i < ub_loop s size i <= size)%Z /\
  (ub_loop s size i ∈ s \/ ub_loop s size i = size) /\
  forall k, k ∈ s -> (k < ub_loop s size i)%Z -> ~ (i < k)%Z.
Proof.
  remember (Z.to_nat (size - i)) as m eqn:Hm. revert i Hm.
  induction (lt_wf m) as [m _ IH]. intros i Hm Hi.
  rewrite ub_loop_step. rewrite decide_True by exact Hi.
  destruct (bool_decide ((i + 1)%Z ∈ s)) eqn:E.
  - apply bool_decide_eq_true in E. split; [lia|]. split; [left; exact E|].
    intros k _ Hk. lia.
  - apply bool_decide_eq_false in E.
    destruct (decide (i + 1 < size)%Z) as [Hi'|Hi'].
    + destruct (IH (Z.to_nat (size - (i + 1))) ltac:(lia) (i + 1)%Z eq_refl Hi')
        as (Hr & Hin & Hmin).
      split; [lia|]. split; [exact Hin|].
      intros k Hk Hlt Hki.
      destruct (decide (k = i + 1)%Z) as [->|Hne]; [contradiction|].
      apply (Hmin k Hk Hlt). lia.
    + rewrite ub_loop_step. rewrite decide_False by exact Hi'.
      split; [lia|]. split; [right; lia|].
      intros k Hk Hlt Hki. lia.
Qed.

End Neighbors.

Section GetNeighbors.

Lemma get_neighbors_sequence (index : list Z) (size : Z) :
  get_neighbors (Some (PySequence index)) None None (Some size)
  = PyOk (neighbors_entry (remove_dups index) (Z.of_nat (length (seqZ 0 size)))
            <$> list_difference (seqZ 0 size) index).
Proof. reflexivity. Qed.

Lemma elem_of_missing (index : list Z) (size i : Z) :
  i ∈ list_difference (seqZ 0 size) index <-> (0 <= i < size)%Z /\ i ∉ index.
Proof.
  rewrite list_elem_of_difference, elem_of_seqZ. split.
  - intros [Hr Hn]. split; [lia | exact Hn].
  - intros [Hr Hn]. split; [lia | exact Hn].
Qed.

Lemma length_seqZ_nonneg (size : Z) :
  (0 <= size)%Z -> Z.of_nat (length (seqZ 0 size)) = size.
Proof. intros Hs. rewrite length_seqZ. lia. Qed.

(** What the two searches find for a missing index among known indices
    of [0 .. size - 1]. *)
Lemma searches_spec (index : list Z) (size i : Z) :
  (forall k, k ∈ index -> (0 <= k < size)%Z) ->
  (0 <= i < size)%Z -> i ∉ index ->
  let lb := lb_loop (remove_dups index) i in
  let ub := ub_loop (remove_dups index) size i in
  (lb = (-1)%Z /\ (forall k, k ∈ index -> (i < k)%Z) \/ nearest_below index i lb) /\
  (ub = size /\ (forall k, k ∈ index -> (k < i)%Z) \/ nearest_above index i ub) /\
  (nearest_below index i lb -> lb <> (-1)%Z) /\
  (nearest_above index i ub -> ub <> size).
Proof.
  intros Hidx Hi Hni. cbv zeta.
  destruct (lb_loop_spec (remove_dups index) i ltac:(lia)) as (Hlr & Hlin & Hlmax).
  destruct (ub_loop_spec (remove_dups index) size i ltac:(lia)) as (Hur & Huin & Humin).
  set (lb := lb_loop (remove_dups index) i) in *.
  set (ub := ub_loop (remove_dups index) size i) in *.
  assert (Hne : forall k, k ∈ index -> k <> i).
  { intros k Hk ->. contradiction. }
  repeat split.
  - destruct Hlin as [Hin|Heq].
    + right. rewrite elem_of_remove_dups in Hin. split; [exact Hin|]. split; [lia|].
      intros k Hk Hki. destruct (decide (k <= lb)%Z) as [Hle|Hgt]; [exact Hle|].
      exfalso. apply (Hlmax k); [rewrite elem_of_remove_dups; exact Hk | lia | exact Hki].
    + left. split; [exact Heq|]. intros k Hk.
      pose proof (Hidx k Hk) as Hk0. pose proof (Hne k Hk) as Hk1.
      destruct (decide (i < k)%Z) as [Hlt|Hge]; [exact Hlt|]. exfalso.
      apply (Hlmax k); [rewrite elem_of_remove_dups; exact Hk | lia | lia].
  - destruct Huin as [Hin|Heq].
    + right. rewrite elem_of_remove_dups in Hin. split; [exact Hin|]. split; [lia|].
      intros k Hk Hki. destruct (decide (ub <= k)%Z) as [Hle|Hgt]; [exact Hle|].
      exfalso. apply (Humin k); [rewrite elem_of_remove_dups; exact Hk | lia | exact Hki].
    + left. split; [exact Heq|]. intros k Hk.
      pose proof (Hidx k Hk) as Hk0. pose proof (Hne k Hk) as Hk1.
      destruct (decide (k < i)%Z) as [Hlt|Hge]; [exact Hlt|]. exfalso.
      apply (Humin k); [rewrite elem_of_remove_dups; exact Hk | lia | lia].
  - intros (Hin & _ & _) Heq. pose proof (Hidx _ Hin). lia.
  - intros (Hin & _ & _) Heq. pose proof (Hidx _ Hin). lia.
Qed.

(** The entries of [get_neighbors(index, size=size)]. *)
Lemma neighbors_entry_spec (index : list Z) (size i : Z) :
  (forall k, k ∈ index -> (0 <= k < size)%Z) ->
  (0 <= i < size)%Z -> i ∉ index ->
  exists nb, neighbors_entry (remove_dups index) size i = (i, nb) /\
    match nb with
    | [lb; ub] => nearest_below index i lb /\ nearest_above index i ub
    | [j] => nearest_above index i j /\ (forall k, k ∈ index -> (i < k)%Z)
             \/ nearest_below index i j /\ (forall k, k ∈ index -> (k < i)%Z)
             \/ j = (-1)%Z /\ index = []
    | _ => False
    end.
Proof.
  intros Hidx Hi Hni.
  destruct (searches_spec index size i Hidx Hi Hni) as (Hlb & Hub & Hlb' & Hub').
  cbv zeta in *. unfold neighbors_entry. cbv zeta.
  set (lb := lb_loop (remove_dups index) i) in *.
  set (ub := ub_loop (remove_dups index) size i) in *.
  destruct (bool_decide (ub = size)) eqn:Eu.
  - apply bool_decide_eq_true in Eu. eexists. split; [reflexivity|].
    destruct Hub as [[_ Hall]|Hab]; [|exfalso; exact (Hub' Hab Eu)].
    destruct Hlb as [[Hm1 Hall']|Hbe].
    + right. right. split; [exact Hm1|].
      destruct index as [|k index]; [reflexivity|]. exfalso.
      pose proof (Hall k ltac:(apply list_elem_of_here)).
      pose proof (Hall' k ltac:(apply list_elem_of_here)). lia.
    + right. left. split; assumption.
  - apply bool_decide_eq_false in Eu.
    destruct Hub as [[Heq _]|Hab]; [contradiction|].
    destruct (bool_decide (lb = (-1)%Z)) eqn:El.
    + apply bool_decide_eq_true in El. eexists. split; [reflexivity|].
      destruct Hlb as [[_ Hall]|Hbe]; [|exfalso; exact (Hlb' Hbe El)].
      left. split; assumption.
    + apply bool_decide_eq_false in El. eexists. split; [reflexivity|].
      destruct Hlb as [[Heq _]|Hbe]; [contradiction|].
      split; assumption.
Qed.



End GetNeighbors.

Section FillMissing.

(** X15.  [get_neighbors] needs two of its three collections: without
    [size], it raises [ValueError] when two of [index], [all_index] and
    [missing] are absent; with [size], when [index] and [missing] both
    are.  Given only [index] and [missing], it returns when [index] is a
    set and raises [TypeError] when [index] is a list or a tuple. *)
Theorem get_neighbors_arguments (index all_index missing : option collection) :
  ((1 < is_None index + is_None all_index + is_None missing)%nat ->
   get_neighbors index all_index missing None = PyRaise PyValueError) /\
  (forall size, index = None -> missing = None ->
     get_neighbors index all_index missing (Some size) = PyRaise PyValueError) /\
  (forall l m,
     get_neighbors (Some (PySequence l)) None (Some m) None = PyRaise PyTypeError) /\
  (forall l m, exists r,
     get_neighbors (Some (PySet l)) None (Some m) None = PyOk r).
Proof.
  split; [|split; [|split]].
  - intros Hn. unfold get_neighbors.
    assert (Hn' : (1 < is_None index + is_None (py_set <$> all_index)
                        + is_None missing)%nat).
    { destruct all_index; exact Hn. }
    rewrite bool_decide_eq_true_2 by exact Hn'. reflexivity.
  - intros size -> ->. reflexivity.
  - intros l m. reflexivity.
  - intros l m. eexists. reflexivity.
Qed.

Lemma position_in_bounds (len : nat) (k : Z) :
  (0 <= k < Z.of_nat len)%Z -> position len k = Some (Z.to_nat k).
Proof.
  intros Hk. unfold position. rewrite bool_decide_eq_true_2 by exact Hk. reflexivity.
Qed.

Lemma getitem_in_bounds (x : list Qc) (k : Z) :
  (0 <= k < Z.of_nat (length x))%Z -> getitem x k = Some (x !!! Z.to_nat k).
Proof.
  intros Hk. unfold getitem. rewrite position_in_bounds by exact Hk. simpl.
  apply list_lookup_lookup_total_lt. lia.
Qed.

Lemma setitem_in_bounds (x : list Qc) (k : Z) (v : Qc) :
  (0 <= k < Z.of_nat (length x))%Z -> setitem x k v = Some (<[Z.to_nat k := v]> x).
Proof.
  intros Hk. unfold setitem. rewrite position_in_bounds by exact Hk. reflexivity.
Qed.

(** The value stored depends only on the positions read. *)
Lemma interpolated_ext (v v' : list Qc) (i : Z) (nb : list Z) :
  Forall (fun j => v' !!! Z.to_nat j = v !!! Z.to_nat j) (reads nb) ->
  interpolated v' i nb = interpolated v i nb.
Proof.
  intros Hr. unfold interpolated, reads in *.
  destruct nb as [|j [|ub [|z nb]]].
  - reflexivity.
  - inversion Hr as [|? ? Hj _]; subst. exact Hj.
  - inversion Hr as [|? ? Hj Hr']; subst. inversion Hr' as [|? ? Hu _]; subst.
    rewrite Hj, Hu. reflexivity.
  - inversion Hr as [|? ? Hj _]; subst. exact Hj.
Qed.

(** What [fillmissing] does on usable entries with distinct positions. *)
Lemma fillmissing_spec (nbs : list (Z * list Z)) (v : list Qc) :
  NoDup nbs.*1 ->
  Forall (usable (length v) nbs.*1) nbs ->
  exists r, fillmissing nbs v = PyOk r /\
    length r = length v /\
    (forall j : nat, Z.of_nat j ∉ nbs.*1 -> r !! j = v !! j) /\
    (forall i nb, (i, nb) ∈ nbs -> r !!! Z.to_nat i = interpolated v i nb).
Proof.
  revert v. induction nbs as [|[i nb] nbs IH]; intros v Hnd Hus.
  - exists v. split; [reflexivity|]. split; [reflexivity|]. split; [reflexivity|].
    intros i nb Hin. apply elem_of_nil in Hin. contradiction.
  - cbn [fmap list_fmap fst] in Hnd, Hus. apply list.NoDup_cons in Hnd as [Hni Hnd].
    apply list.Forall_cons in Hus as [(Hi & Hne & Hreads & Hdist) Hus].
    cbn [fst snd] in Hi, Hne, Hreads, Hdist.
    assert (Hstep : fillmissing ((i, nb) :: nbs) v
                    = fillmissing nbs (<[Z.to_nat i := interpolated v i nb]> v)).
    { unfold interpolated, reads in *.
      destruct nb as [|j [|ub [|z nb]]]; [contradiction | | |].
      - inversion Hreads as [|? ? [Hj _] _]; subst.
        cbn [fillmissing]. rewrite getitem_in_bounds by exact Hj. cbn [py_bind].
        rewrite setitem_in_bounds by exact Hi. reflexivity.
      - inversion Hreads as [|? ? [Hj _] Hr']; subst.
        inversion Hr' as [|? ? [Hu _] _]; subst.
        cbn [fillmissing]. cbv zeta.
        replace (i - j + (ub - i))%Z with (ub - j)%Z by lia.
        rewrite bool_decide_eq_false_2 by lia.
        rewrite !getitem_in_bounds by assumption. cbn [py_bind].
        rewrite setitem_in_bounds by exact Hi. reflexivity.
      - inversion Hreads as [|? ? [Hj _] _]; subst.
        cbn [fillmissing]. rewrite getitem_in_bounds by exact Hj. cbn [py_bind].
        rewrite setitem_in_bounds by exact Hi. reflexivity. }
    rewrite Hstep. clear Hstep.
    set (v' := <[Z.to_nat i := interpolated v i nb]> v).
    assert (Hlen : length v' = length v) by apply length_insert.
    destruct (IH v' Hnd) as (r & Hr & Hlr & Hkeep & Hfill).
    { rewrite Hlen. eapply Forall_impl; [|exact Hus].
      intros [i0 nb0] (H0 & H1 & H2 & H3). split; [exact H0|]. split; [exact H1|].
      split; [|exact H3]. eapply Forall_impl; [|exact H2].
      intros j [Hj Hnj]. split; [exact Hj|].
      intros Hin. apply Hnj. apply list_elem_of_further. exact Hin. }
    exists r. split; [exact Hr|]. split; [lia|]. split.
    + intros j Hj. cbn [fmap list_fmap fst] in Hj.
      rewrite Hkeep by (intros Hin; apply Hj; apply list_elem_of_further; exact Hin).
      unfold v'. apply list_lookup_insert_ne.
      intros Heq. apply Hj. rewrite <- Heq. rewrite Z2Nat.id by lia.
      apply list_elem_of_here.
    + intros i0 nb0 Hin. apply elem_of_cons in Hin as [Heq|Hin].
      * injection Heq as -> ->.
        assert (Hri : r !! Z.to_nat i = v' !! Z.to_nat i).
        { apply Hkeep. rewrite Z2Nat.id by lia. exact Hni. }
        rewrite (list_lookup_total_alt r), Hri. unfold v'.
        rewrite list_lookup_insert_eq by lia. reflexivity.
      * rewrite (Hfill i0 nb0 Hin). apply interpolated_ext.
        rewrite list.Forall_forall in Hus. destruct (Hus _ Hin) as (_ & _ & H2 & _).
        cbn [snd] in H2. eapply Forall_impl; [|exact H2].
        intros j [Hj Hnj]. unfold v'. apply list_lookup_total_insert_ne.
        intros Heq. apply Hnj.
        assert (j = i) as -> by lia. apply list_elem_of_here.
Qed.

End FillMissing.

Section Interpolation.

Lemma expand_fold (idx : list Z) (vals acc : list Qc) :
  length vals = length idx -> NoDup idx ->
  Forall (fun k => (0 <= k < Z.of_nat (length acc))%Z) idx ->
  exists r,
    foldl (fun (acc : option (list Qc)) (kv : Z * Qc) =>
             new_values ← acc; setitem new_values (fst kv) (snd kv))
          (Some acc) (zip idx vals) = Some r /\
    length r = length acc /\
    (forall k j, idx !! k = Some j -> r !! Z.to_nat j = vals !! k) /\
    (forall p : nat, Z.of_nat p ∉ idx -> r !! p = acc !! p).
Proof.
  revert vals acc. induction idx as [|j0 idx IH]; intros vals acc Hlen Hnd Hb.
  - exists acc. split; [reflexivity|]. split; [reflexivity|]. split.
    + intros k j Hk. discriminate Hk.
    + reflexivity.
  - destruct vals as [|x0 vals]; [discriminate Hlen|].
    apply list.NoDup_cons in Hnd as [Hni Hnd].
    apply list.Forall_cons in Hb as [Hj0 Hb].
    cbn [zip zip_with foldl fst snd]. cbn [mbind option_bind].
    rewrite setitem_in_bounds by exact Hj0.
    destruct (IH vals (<[Z.to_nat j0 := x0]> acc)) as (r & Hr & Hlr & Hknown & Hkeep).
    + simpl in Hlen. lia.
    + exact Hnd.
    + rewrite length_insert. exact Hb.
    + exists r. split; [exact Hr|]. split; [rewrite Hlr; apply length_insert|]. split.
      * intros [|k] j Hk.
        -- injection Hk as <-. cbn [lookup list_lookup].
           rewrite Hkeep by (rewrite Z2Nat.id by lia; exact Hni).
           apply list_lookup_insert_eq. lia.
        -- apply (Hknown k j Hk).
      * intros p Hp. rewrite Hkeep.
        -- apply list_lookup_insert_ne. intros Heq. apply Hp. rewrite <- Heq.
           rewrite Z2Nat.id by lia. apply list_elem_of_here.
        -- intros Hin. apply Hp. apply list_elem_of_further. exact Hin.
Qed.

Lemma expand_spec (values : list Qc) (index : list Z) (size : nat) :
  length values = length index -> NoDup index ->
  (forall k, k ∈ index -> (0 <= k < Z.of_nat size)%Z) ->
  exists v, expand values index size = Some v /\ length v = size /\
    forall k j, index !! k = Some j -> v !! Z.to_nat j = values !! k.
Proof.
  intros Hlen Hnd Hb. unfold expand.
  rewrite bool_decide_eq_true_2 by exact Hlen. cbn [mbind option_bind].
  destruct (expand_fold index values (replicate size 0) Hlen Hnd) as (r & Hr & Hlr & Hk & _).
  { rewrite length_replicate. apply list.Forall_forall. exact Hb. }
  exists r. split; [exact Hr|]. split; [rewrite Hlr; apply length_replicate|]. exact Hk.
Qed.

Lemma nearest_below_unique (index : list Z) (i lb lb' : Z) :
  nearest_below index i lb -> nearest_below index i lb' -> lb = lb'.
Proof.
  intros (H1 & H2 & H3) (H1' & H2' & H3').
  pose proof (H3 lb' H1' H2'). pose proof (H3' lb H1 H2). lia.
Qed.

Lemma nearest_above_unique (index : list Z) (i ub ub' : Z) :
  nearest_above index i ub -> nearest_above index i ub' -> ub = ub'.
Proof.
  intros (H1 & H2 & H3) (H1' & H2' & H3').
  pose proof (H3 ub' H1' H2'). pose proof (H3' ub H1 H2). lia.
Qed.

(** Expanding the known values and filling the missing stages, in any
    order of the entries. *)
Lemma fill_core (values : list Qc) (index : list Z) (size : nat)
    (l nbs : list (Z * list Z)) :
  length values = length index -> NoDup index -> index <> [] ->
  (forall k, k ∈ index -> (0 <= k < Z.of_nat size)%Z) ->
  get_neighbors (Some (PySequence index)) None None (Some (Z.of_nat size)) = PyOk l ->
  nbs ≡ₚ l ->
  exists v r,
    expand values index size = Some v /\ fillmissing nbs v = PyOk r /\
    length r = size /\
    (forall k j, index !! k = Some j -> r !! Z.to_nat j = values !! k) /\
    (forall i nb, (i, nb) ∈ nbs -> r !!! Z.to_nat i = interpolated r i nb) /\
    (forall i, (0 <= i < Z.of_nat size)%Z -> i ∉ index ->
       exists nb, (i, nb) ∈ nbs /\
         match nb with
         | [lb; ub] => nearest_below index i lb /\ nearest_above index i ub
         | [j] => nearest_above index i j /\ (forall k, k ∈ index -> (i < k)%Z)
                  \/ nearest_below index i j /\ (forall k, k ∈ index -> (k < i)%Z)
         | _ => False
         end).
Proof.
  intros Hlen Hnd Hne Hb Hget Hperm.
  rewrite get_neighbors_sequence in Hget. injection Hget as Hl.
  rewrite length_seqZ_nonneg in Hl by lia.
  destruct (expand_spec values index size Hlen Hnd Hb) as (v & Hv & Hlv & Hknown).
  assert (Hfst : l.*1 = list_difference (seqZ 0 (Z.of_nat size)) index).
  { rewrite <- Hl, <- list_fmap_compose.
    rewrite <- (list_fmap_id (list_difference (seqZ 0 (Z.of_nat size)) index)) at 2.
    apply list_fmap_ext. intros _ i _. unfold compose, neighbors_entry. cbv zeta.
    destruct (bool_decide _); [reflexivity|]. destruct (bool_decide _); reflexivity. }
  assert (Hentry : forall i nb, (i, nb) ∈ nbs ->
            (0 <= i < Z.of_nat size)%Z /\ (i ∉ index) /\
            match nb with
            | [lb; ub] => nearest_below index i lb /\ nearest_above index i ub
            | [j] => nearest_above index i j /\ (forall k, k ∈ index -> (i < k)%Z)
                     \/ nearest_below index i j /\ (forall k, k ∈ index -> (k < i)%Z)
            | _ => False
            end).
  { intros i nb Hin. rewrite Hperm, <- Hl in Hin.
    apply list_elem_of_fmap in Hin as (i' & Heq & Hin).
    apply elem_of_missing in Hin as [Hi Hni].
    destruct (neighbors_entry_spec index (Z.of_nat size) i' Hb Hi Hni)
      as (nb' & Hnb & Hspec).
    rewrite Hnb in Heq. injection Heq as -> ->.
    split; [exact Hi|]. split; [exact Hni|].
    destruct nb' as [|j [|ub [|z nb']]]; try exact Hspec.
    destruct Hspec as [H|[H|[_ H]]]; [left; exact H | right; exact H | contradiction]. }
  assert (Hmiss : forall j, j ∈ nbs.*1 <-> (0 <= j < Z.of_nat size)%Z /\ j ∉ index).
  { intros j. rewrite Hperm, Hfst. apply elem_of_missing. }
  assert (Hus : Forall (usable (length v) nbs.*1) nbs).
  { apply list.Forall_forall. intros [i nb] Hin.
    destruct (Hentry i nb Hin) as (Hi & Hni & Hspec).
    assert (Hidx : forall j, j ∈ index ->
              (0 <= j < Z.of_nat (length v))%Z /\ j ∉ nbs.*1).
    { intros j Hj. rewrite Hlv. split; [apply Hb; exact Hj|].
      intros Hin'. apply Hmiss in Hin' as [_ Hnj]. contradiction. }
    unfold usable. cbn [fst snd]. rewrite Hlv. split; [exact Hi|].
    destruct nb as [|j [|ub [|z nb]]]; try contradiction.
    - split; [discriminate|]. split; [|exact I].
      rewrite <- Hlv. constructor; [|constructor].
      destruct Hspec as [[(Hj & _) _]|[(Hj & _) _]]; apply Hidx; exact Hj.
    - destruct Hspec as [(Hj & Hlt & _) (Hu & Hgt & _)].
      split; [discriminate|]. split; [|lia].
      rewrite <- Hlv. constructor; [apply Hidx; exact Hj|].
      constructor; [apply Hidx; exact Hu|constructor]. }
  assert (Hndn : NoDup nbs.*1).
  { rewrite Hperm, Hfst. apply NoDup_list_difference, NoDup_seqZ. }
  destruct (fillmissing_spec nbs v Hndn Hus) as (r & Hr & Hlr & Hkeep & Hfill).
  exists v, r. split; [exact Hv|]. split; [exact Hr|]. split; [lia|].
  assert (Hsame : forall j, j ∈ index -> r !! Z.to_nat j = v !! Z.to_nat j).
  { intros j Hj. apply Hkeep. rewrite Z2Nat.id by (apply Hb in Hj; lia).
    intros Hin. apply Hmiss in Hin as [_ Hnj]. contradiction. }
  split; [|split].
  - intros k j Hk. rewrite Hsame by (apply list_elem_of_lookup_2 in Hk; exact Hk).
    apply Hknown. exact Hk.
  - intros i nb Hin. rewrite (Hfill i nb Hin). symmetry. apply interpolated_ext.
    rewrite list.Forall_forall in Hus. destruct (Hus _ Hin) as (_ & _ & H2 & _).
    cbn [snd] in H2. eapply Forall_impl; [|exact H2].
    intros j [Hj Hnj]. rewrite !list_lookup_total_alt. f_equal.
    apply Hkeep. rewrite Z2Nat.id by lia. exact Hnj.
  - intros i Hi Hni.
    assert (Hin : i ∈ nbs.*1) by (apply Hmiss; split; assumption).
    apply list_elem_of_fmap in Hin as ([i' nb] & Heq & Hin). cbn [fst] in Heq. subst i'.
    exists nb. split; [exact Hin|]. apply (Hentry i nb Hin).
Qed.

(** X16.  Expanding the known stage values to all stages and filling the
    missing ones from [get_neighbors(index, size=size)], walked in any
    order: every known stage keeps its value; a missing stage between two
    known stages receives their average weighted by closeness (linear
    interpolation); a missing stage before the first or after the last
    known stage receives the value of the nearest known stage. *)
Theorem fillmissing_interpolates (values : list Qc) (index : list Z) (size : nat)
    (l nbs : list (Z * list Z)) :
  length values = length index -> NoDup index -> index <> [] ->
  (forall k, k ∈ index -> (0 <= k < Z.of_nat size)%Z) ->
  get_neighbors (Some (PySequence index)) None None (Some (Z.of_nat size)) = PyOk l ->
  nbs ≡ₚ l ->
  exists v r,
    expand values index size = Some v /\ fillmissing nbs v = PyOk r /\
    length r = size /\
    (forall k j, index !! k = Some j -> r !! Z.to_nat j = values !! k) /\
    (forall i, (0 <= i < Z.of_nat size)%Z -> i ∉ index ->
       (forall lb ub, nearest_below index i lb -> nearest_above index i ub ->
          r !!! Z.to_nat i
          = Q2Qc (inject_Z (ub - i)) / Q2Qc (inject_Z (ub - lb)) * r !!! Z.to_nat lb
            + Q2Qc (inject_Z (i - lb)) / Q2Qc (inject_Z (ub - lb)) * r !!! Z.to_nat ub) /\
       (forall ub, nearest_above index i ub -> (forall k, k ∈ index -> (i < k)%Z) ->
          r !!! Z.to_nat i = r !!! Z.to_nat ub) /\
       (forall lb, nearest_below index i lb -> (forall k, k ∈ index -> (k < i)%Z) ->
          r !!! Z.to_nat i = r !!! Z.to_nat lb)).
Proof.
  intros Hlen Hnd Hne Hb Hget Hperm.
  destruct (fill_core values index size l nbs Hlen Hnd Hne Hb Hget Hperm)
    as (v & r & Hv & Hr & Hlr & Hknown & Hfill & Hcover).
  exists v, r. split; [exact Hv|]. split; [exact Hr|]. split; [exact Hlr|].
  split; [exact Hknown|].
  intros i Hi Hni. destruct (Hcover i Hi Hni) as (nb & Hin & Hspec).
  pose proof (Hfill i nb Hin) as Hval.
  destruct nb as [|j [|ub' [|z nb]]]; try contradiction.
  - destruct Hspec as [[Hab Hall]|[Hbe Hall]].
    + split; [|split].
      * intros lb ub (Hlb & Hlt & _) _. pose proof (Hall lb Hlb). lia.
      * intros ub Hub _. rewrite (nearest_above_unique _ _ _ _ Hub Hab). exact Hval.
      * intros lb (Hlb & Hlt & _) _. pose proof (Hall lb Hlb). lia.
    + split; [|split].
      * intros lb ub _ (Hub & Hgt & _). pose proof (Hall ub Hub). lia.
      * intros ub (Hub & Hgt & _) _. pose proof (Hall ub Hub). lia.
      * intros lb Hlb _. rewrite (nearest_below_unique _ _ _ _ Hlb Hbe). exact Hval.
  - destruct Hspec as [Hbe Hab]. split; [|split].
    + intros lb ub Hlb Hub.
      rewrite (nearest_below_unique _ _ _ _ Hlb Hbe),
              (nearest_above_unique _ _ _ _ Hub Hab). exact Hval.
    + intros ub _ Hall. destruct Hbe as (Hj & Hlt & _). pose proof (Hall j Hj). lia.
    + intros lb _ Hall. destruct Hab as (Hu & Hgt & _). pose proof (Hall ub' Hu). lia.
Qed.




Lemma fillmissing_interpolates_witness :
  exists v r,
    expand [1; Q2Qc 4] [0; 3]%Z 5 = Some v /\
    fillmissing [(4, [3]); (1, [0; 3]); (2, [0; 3])]%Z v = PyOk r /\
    length r = 5%nat.
Proof.
  assert (Hnd : NoDup [0; 3]%Z).
  { apply (bool_decide_eq_true_1 _). vm_compute. reflexivity. }
  assert (Hne : [0; 3]%Z <> []) by discriminate.
  assert (Hb : forall k, k ∈ [0; 3]%Z -> (0 <= k < Z.of_nat 5)%Z).
  { intros k Hk. apply elem_of_cons in Hk as [->|Hk]; [lia|].
    apply list_elem_of_singleton in Hk as ->. lia. }
  assert (Hget : get_neighbors (Some (PySequence [0; 3]%Z)) None None
                   (Some (Z.of_nat 5))
                 = PyOk [(1, [0; 3]); (2, [0; 3]); (4, [3])]%Z).
  { vm_compute. reflexivity. }
  assert (Hperm : [(4, [3]); (1, [0; 3]); (2, [0; 3])]%Z
                  ≡ₚ [(1, [0; 3]); (2, [0; 3]); (4, [3])]%Z).
  { apply (Permutation_cons_append [(1, [0; 3]); (2, [0; 3])]%Z (4, [3])%Z). }
  destruct (fillmissing_interpolates [1; Q2Qc 4] [0; 3]%Z 5 _ _
              eq_refl Hnd Hne Hb Hget Hperm) as (v & r & Hv & Hr & Hlr & _).
  exists v, r. repeat split; assumption.
Defined.


End Interpolation.

(** ** Linear fit *)

Section LinearFit.

















End LinearFit.

Section LeastSquares.






End LeastSquares.
